(** * Helmet monitor: alert debouncing, label classification and snapshots

    A shallow embedding of [app.py].  The detector, the camera, the audio
    player and the image codec are external collaborators: what they return
    on a call is an input of the model ([capture], [playsound_result],
    [imwrite_result]).  Wall-clock readings ([time.time()]) and detection
    confidences are exact rationals; labels and paths are byte strings. *)

From Stdlib Require Import QArith Lqa ZArith String Ascii.
From stdpp Require Import gmap strings list.

Local Open Scope string_scope.
Local Open Scope list_scope.

(** ** Outcome of a call that may block or raise *)

Inductive call (A : Type) : Type :=
  | Returned (a : A)
  | Blocked
  | Raised (exc : string).
Arguments Returned {A} a.
Arguments Blocked {A}.
Arguments Raised {A} exc.

(** ** String operations of the classifier *)

Module Str.

(** [c.lower()] on one byte: only [A]..[Z] change. *)
Definition ascii_lower (c : ascii) : ascii :=
  let n := nat_of_ascii c in
  if ((65 <=? n) && (n <=? 90))%nat then ascii_of_nat (n + 32) else c.

(** [s.lower()] *)
Fixpoint lower (s : string) : string :=
  match s with
  | EmptyString => EmptyString
  | String c s' => String (ascii_lower c) (lower s')
  end.

(** [sub in s]: [sub] is a prefix of some suffix of [s]. *)
Fixpoint str_in (sub s : string) : bool :=
  match s with
  | EmptyString => String.prefix sub EmptyString
  | String _ s' => String.prefix sub s || str_in sub s'
  end.

(** What "[s] contains [sub]" means, independently of the search. *)
Definition contains (s sub : string) : Prop :=
  exists pre post : string, s = (pre ++ sub ++ post)%string.

End Str.

(** ** CONFIG (lines 14-18) *)

Definition MODEL_PATH : string := "helmet_detection_v11.pt".
Definition ALERT_SOUND : string := "static/alert.mp3".
Definition SNAPSHOT_DIR : string := "snapshots".
Definition CONFIDENCE_THRESHOLD : Q := 0.5.
Definition ALERT_COOLDOWN : Q := 5.

(** [x < y] on rationals, as a test. *)
Definition Qltb (x y : Q) : bool :=
  (Qnum x * Zpos (Qden y) <? Qnum y * Zpos (Qden x))%Z.

(** ** [queue.Queue] *)

Record Queue : Type := mkQueue {
  maxsize : nat;
  items : list Z;
  unfinished_tasks : nat
}.

Module PyQueue.

Definition new (maxsize : nat) : Queue := mkQueue maxsize [] 0.

Definition empty (q : Queue) : bool :=
  match items q with [] => true | _ :: _ => false end.

(** A queue with [maxsize <= 0] is unbounded. *)
Definition full (q : Queue) : bool :=
  ((0 <? maxsize q) && (maxsize q <=? length (items q)))%nat.

(** [q.put(x)] waits while the queue is full. *)
Definition put (x : Z) (q : Queue) : call Queue :=
  if full q then Blocked
  else Returned (mkQueue (maxsize q) (items q ++ [x]) (S (unfinished_tasks q))).

(** [q.get()] waits while the queue is empty. *)
Definition get (q : Queue) : call (Z * Queue) :=
  match items q with
  | [] => Blocked
  | x :: rest => Returned (x, mkQueue (maxsize q) rest (unfinished_tasks q))
  end.

Definition task_done (q : Queue) : call Queue :=
  match unfinished_tasks q with
  | O => Raised "ValueError"
  | S n => Returned (mkQueue (maxsize q) (items q) n)
  end.

End PyQueue.

(** [_audio_queue = queue.Queue(maxsize=1)] (line 28) *)
Definition _audio_queue : Queue := PyQueue.new 1.

(** ** Frames, detections, drawing *)

Definition point : Type := Z * Z.
Definition bgr : Type := Z * Z * Z.

Inductive overlay_text : Type :=
  | TextDetection (label : string) (conf : Q)   (* f"{label} ({conf:.2f})" *)
  | TextHelmet (helmet_count : nat)             (* f"Helmet: {helmet_count}" *)
  | TextNoHelmet (no_helmet_count : nat).       (* f"No Helmet: {no_helmet_count}" *)

Inductive draw : Type :=
  | Rectangle (pt1 pt2 : point) (color : bgr) (thickness : Z)
  | PutText (text : overlay_text) (org : point) (scale : Q) (color : bgr) (thickness : Z).

(** A frame is the captured image, opaque, and what has been drawn on it,
    oldest first; [cv2.rectangle] and [cv2.putText] update it in place. *)
Record Frame : Type := mkFrame {
  image : nat;
  drawn : list draw
}.

Definition cv2_draw (d : draw) (frame : Frame) : Frame :=
  mkFrame (image frame) (drawn frame ++ [d]).

(** One element of [results[0].boxes], with [label] already read from
    [model.names[int(box.cls)]]. *)
Record Box : Type := mkBox {
  conf : Q;
  label : string;
  xyxy : Z * Z * Z * Z
}.

(** ** [datetime] and the snapshot name *)

Record datetime : Type := mkDatetime {
  year : Z; month : Z; day : Z;
  hour : Z; minute : Z; second : Z;
  microsecond : Z
}.

(** The ranges [datetime] enforces, with a four-digit year. *)
Definition valid_datetime (d : datetime) : Prop :=
  (1000 <= year d <= 9999 /\ 1 <= month d <= 12 /\ 1 <= day d <= 31 /\
   0 <= hour d <= 23 /\ 0 <= minute d <= 59 /\ 0 <= second d <= 59 /\
   0 <= microsecond d <= 999999)%Z.

Definition digit (n : Z) : ascii := ascii_of_nat (48 + Z.to_nat (n mod 10)).

Definition two_digits (n : Z) : string :=
  String (digit (n / 10)) (String (digit n) EmptyString).

Definition four_digits (n : Z) : string :=
  String (digit (n / 1000)) (String (digit (n / 100)) (two_digits n)).

(** [d.strftime("%Y%m%d_%H%M%S")] *)
Definition strftime (d : datetime) : string :=
  (four_digits (year d) ++ two_digits (month d) ++ two_digits (day d) ++ "_" ++
   two_digits (hour d) ++ two_digits (minute d) ++ two_digits (second d))%string.

(** [os.path.join(a, b)] for a relative [b]. *)
Definition path_join (a b : string) : string := (a ++ "/" ++ b)%string.

(** [os.path.join(SNAPSHOT_DIR, f"no_helmet_{ts}.jpg")] (line 98) *)
Definition snapshot_filename (ts : string) : string :=
  path_join SNAPSHOT_DIR ("no_helmet_" ++ ts ++ ".jpg")%string.

(** The timestamp cut to the second. *)
Definition to_second (d : datetime) : datetime :=
  mkDatetime (year d) (month d) (day d) (hour d) (minute d) (second d) 0.

(** ** File system *)

Inductive node : Type :=
  | Dir
  | File (content : Frame).

(** [os.makedirs(name, exist_ok=True)] for a one-component [name]. *)
Definition makedirs_exist_ok (name : string) (fs : gmap string node) : call (gmap string node) :=
  match fs !! name with
  | None => Returned (<[name := Dir]> fs)
  | Some Dir => Returned fs
  | Some (File _) => Raised "FileExistsError"
  end.

(** What [cv2.imwrite] did: wrote the file and returned [True], wrote
    nothing and returned [False], or raised [cv2.error]. *)
Inductive imwrite_result : Type :=
  | ImwriteTrue
  | ImwriteFalse
  | ImwriteRaised.

(** What [playsound] did: returned, or raised an [Exception]. *)
Inductive playsound_result : Type :=
  | PlayOk
  | PlayRaised (e : string).

(** ** What the program does to the outside, in order *)

Inductive effect : Type :=
  | PlayAlert (accepted : bool)                       (* play_alert() *)
  | Playsound (sound : string) (now : Q)              (* playsound(ALERT_SOUND) entered *)
  | PlaysoundDone (r : playsound_result)              (* ... and left *)
  | PrintAudioError (e : string)                      (* print("Audio error:", e) *)
  | Imwrite (filename : string) (frame : Frame) (r : imwrite_result)
  | Yield (frame : Frame).

(** ** SOUND MANAGER: the worker's loop (lines 30-42) *)

(** [now - last_time >= ALERT_COOLDOWN] (line 36) *)
Definition cooldown_elapsed (last_time now : Q) : bool :=
  Qle_bool ALERT_COOLDOWN (now - last_time).

(** Lines 37-40: the playback and its [except Exception]. *)
Definition try_playsound (now : Q) (r : playsound_result) : list effect :=
  Playsound ALERT_SOUND now :: PlaysoundDone r ::
  match r with
  | PlayOk => []
  | PlayRaised e => [PrintAudioError e]
  end.

(** One pass of the [while True] body once [get()] has returned: the new
    [last_time] and what was done. *)
Definition audio_iteration (last_time now : Q) (r : playsound_result) : Q * list effect :=
  if cooldown_elapsed last_time now
  then (now, try_playsound now r)
  else (last_time, []).

(** The loop over the requests the worker takes from the queue, each with
    the clock reading of line 35 and what [playsound] does if it is called:
    the final [last_time] and everything that was done, oldest first. *)
Fixpoint audio_loop (last_time : Q) (reqs : list (Q * playsound_result)) : Q * list effect :=
  match reqs with
  | [] => (last_time, [])
  | (now, r) :: reqs' =>
      let '(last_time', es) := audio_iteration last_time now r in
      let '(final, es') := audio_loop last_time' reqs' in
      (final, es ++ es')
  end.

(** [last_time = 0] (line 32), then the loop. *)
Definition _audio_worker (reqs : list (Q * playsound_result)) : Q * list effect :=
  audio_loop 0 reqs.

Definition is_playsound (e : effect) : bool :=
  match e with Playsound _ _ => true | _ => false end.

(** Whether a pass of the loop played the sound. *)
Definition fired (pass : Q * list effect) : bool := existsb is_playsound (snd pass).

(** Whether an effect is a playback started at a clock reading in
    [[w, w + ALERT_COOLDOWN)]. *)
Definition playsound_within (w : Q) (e : effect) : bool :=
  match e with
  | Playsound _ now => Qle_bool w now && Qltb now (w + ALERT_COOLDOWN)
  | _ => false
  end.

(** [play_alert] (lines 47-50) *)
Definition play_alert (q : Queue) : call Queue :=
  if PyQueue.empty q then PyQueue.put 1 q else Returned q.

(** ** FRAME GENERATOR: the loop over the boxes (lines 64-85) *)

(** ["helmet" in label.lower() and "no" not in label.lower()] (line 75) *)
Definition helmet_label (label : string) : bool :=
  Str.str_in "helmet" (Str.lower label) && negb (Str.str_in "no" (Str.lower label)).

Record tally : Type := mkTally {
  helmet_count : nat;
  no_helmet_count : nat;
  no_helmet_detected : bool;
  frame : Frame
}.

Definition green : bgr := (0, 255, 0)%Z.
Definition red : bgr := (0, 0, 255)%Z.

(** The body of [for box in detections] (lines 69-85). *)
Definition box_step (t : tally) (box : Box) : tally :=
  if Qltb (conf box) CONFIDENCE_THRESHOLD then t
  else
    let '(x1, y1, x2, y2) := xyxy box in
    let '(color, t') :=
      if helmet_label (label box)
      then (green, mkTally (S (helmet_count t)) (no_helmet_count t) (no_helmet_detected t) (frame t))
      else (red, mkTally (helmet_count t) (S (no_helmet_count t)) true (frame t)) in
    let f1 := cv2_draw (Rectangle (x1, y1) (x2, y2) color 2) (frame t') in
    let f2 := cv2_draw (PutText (TextDetection (label box) (conf box)) (x1, y1 - 10)%Z 0.7 color 2) f1 in
    mkTally (helmet_count t') (no_helmet_count t') (no_helmet_detected t') f2.

(** Lines 64-85 on a freshly captured frame. *)
Definition tally_boxes (captured : Frame) (detections : list Box) : tally :=
  fold_left box_step detections (mkTally 0 0 false captured).

(** Lines 88-92: the counts box. *)
Definition overlay_counts (t : tally) : Frame :=
  let f1 := cv2_draw (Rectangle (0, 0)%Z (360, 90)%Z (255, 255, 255)%Z (-1)) (frame t) in
  let f2 := cv2_draw (PutText (TextHelmet (helmet_count t)) (10, 35)%Z 0.9 (0, 128, 0)%Z 2) f1 in
  cv2_draw (PutText (TextNoHelmet (no_helmet_count t)) (10, 70)%Z 0.9 (0, 0, 255)%Z 2) f2.

(** ** The running program: frame generator and audio worker side by side *)

(** What one [cap.read()] gives, with what the collaborators do for that
    frame: the detector's boxes, the wall clock at line 97, the outcome of
    [cv2.imwrite] if it is called.  The detector, the drawing and the
    encoder return for a [capture]; a frame on which one of them raises is
    not among the captures. *)
Record capture : Type := mkCapture {
  shot : nat;
  detections : list Box;
  wall_clock : datetime;
  imwrite_does : imwrite_result
}.

Inductive cap_read : Type :=
  | ReadFailed
  | ReadOk (c : capture).

(** Where the worker thread stands: waiting in [get()] (line 34), inside
    [playsound] (line 38) for the request taken at [now], or dead. *)
Inductive worker_pc : Type :=
  | AtGet
  | InPlaysound (now : Q)
  | WorkerDied (exc : string).

Inductive generator_pc : Type :=
  | Streaming
  | Ended
  | GeneratorDied (exc : string).

Record system : Type := mkSystem {
  audio_queue : Queue;          (* the shared _audio_queue *)
  last_time : Q;                (* the worker's local *)
  worker : worker_pc;
  generator : generator_pc;
  fs : gmap string node;
  history : list effect         (* oldest first *)
}.

Definition set_queue (q : Queue) (s : system) : system :=
  mkSystem q (last_time s) (worker s) (generator s) (fs s) (history s).
Definition set_last_time (t : Q) (s : system) : system :=
  mkSystem (audio_queue s) t (worker s) (generator s) (fs s) (history s).
Definition set_worker (w : worker_pc) (s : system) : system :=
  mkSystem (audio_queue s) (last_time s) w (generator s) (fs s) (history s).
Definition set_generator (g : generator_pc) (s : system) : system :=
  mkSystem (audio_queue s) (last_time s) (worker s) g (fs s) (history s).
Definition set_fs (m : gmap string node) (s : system) : system :=
  mkSystem (audio_queue s) (last_time s) (worker s) (generator s) m (history s).
Definition emit (es : list effect) (s : system) : system :=
  mkSystem (audio_queue s) (last_time s) (worker s) (generator s) (fs s) (history s ++ es).

(** Module start-up: line 20, line 28, and the worker thread of line 45
    with its [last_time = 0]. *)
Definition startup (disk : gmap string node) : call system :=
  match makedirs_exist_ok SNAPSHOT_DIR disk with
  | Returned disk' => Returned (mkSystem _audio_queue 0 AtGet Streaming disk' [])
  | Blocked => Blocked
  | Raised e => Raised e
  end.

(** Lines 95-99 for an annotated frame: the alert request, then the
    snapshot.  The value [cv2.imwrite] returns is not looked at. *)
Definition alert_and_snapshot (c : capture) (annotated : Frame) (s : system) : option system :=
  match play_alert (audio_queue s) with
  | Returned q' =>
      let accepted := PyQueue.empty (audio_queue s) in
      let filename := snapshot_filename (strftime (wall_clock c)) in
      let s1 := emit [PlayAlert accepted; Imwrite filename annotated (imwrite_does c)]
                     (set_queue q' s) in
      match imwrite_does c with
      | ImwriteTrue => Some (set_fs (<[filename := File annotated]> (fs s1)) s1)
      | ImwriteFalse => Some s1
      | ImwriteRaised => Some (set_generator (GeneratorDied "cv2.error") s1)
      end
  | Blocked => None
  | Raised e => Some (set_generator (GeneratorDied e) s)
  end.

(** One pass of the [while True] of [generate_frames] (lines 57-105). *)
Definition generate_frames_step (rd : cap_read) (s : system) : option system :=
  match generator s with
  | Streaming =>
      match rd with
      | ReadFailed => Some (set_generator Ended s)
      | ReadOk c =>
          let t := tally_boxes (mkFrame (shot c) []) (detections c) in
          let annotated := overlay_counts t in
          if no_helmet_detected t then
            match alert_and_snapshot c annotated s with
            | Some s1 =>
                match generator s1 with
                | Streaming => Some (emit [Yield annotated] s1)
                | _ => Some s1
                end
            | None => None
            end
          else Some (emit [Yield annotated] s)
      end
  | _ => None
  end.

(** Lines 34-36 and, when the cooldown has not elapsed, line 42. *)
Definition worker_get (now : Q) (s : system) : option system :=
  match worker s with
  | AtGet =>
      match PyQueue.get (audio_queue s) with
      | Returned (_, q') =>
          if cooldown_elapsed (last_time s) now
          then Some (emit [Playsound ALERT_SOUND now] (set_worker (InPlaysound now) (set_queue q' s)))
          else
            match PyQueue.task_done q' with
            | Returned q'' => Some (set_queue q'' s)
            | Blocked => None
            | Raised e => Some (set_worker (WorkerDied e) (set_queue q' s))
            end
      | Blocked => None
      | Raised e => Some (set_worker (WorkerDied e) s)
      end
  | _ => None
  end.

(** Lines 38-42 from the moment [playsound] returns or raises. *)
Definition playsound_returns (r : playsound_result) (s : system) : option system :=
  match worker s with
  | InPlaysound now =>
      let printed := match r with PlayOk => [] | PlayRaised e => [PrintAudioError e] end in
      let s1 := set_last_time now (emit (PlaysoundDone r :: printed) s) in
      match PyQueue.task_done (audio_queue s1) with
      | Returned q' => Some (set_worker AtGet (set_queue q' s1))
      | Blocked => None
      | Raised e => Some (set_worker (WorkerDied e) s1)
      end
  | _ => None
  end.

Inductive event : Type :=
  | CapRead (rd : cap_read)
  | WorkerGet (now : Q)
  | PlaysoundReturns (r : playsound_result).

(** One scheduling step; [None] when the thread concerned cannot move.
    The two threads interleave at these steps: a pass of the frame loop,
    the worker leaving [get()], the worker leaving [playsound].  One frame
    generator runs, so nothing comes between the test and the [put] of
    [play_alert]. *)
Definition step (e : event) (s : system) : option system :=
  match e with
  | CapRead rd => generate_frames_step rd s
  | WorkerGet now => worker_get now s
  | PlaysoundReturns r => playsound_returns r s
  end.

Fixpoint run (es : list event) (s : system) : option system :=
  match es with
  | [] => Some s
  | e :: es' =>
      match step e s with
      | Some s' => run es' s'
      | None => None
      end
  end.

(** The states the program can be in. *)
Definition reachable (s : system) : Prop :=
  exists (disk : gmap string node) (s0 : system) (es : list event),
    startup disk = Returned s0 /\ run es s0 = Some s.

(** ** Reading the effects *)

Definition is_imwrite (e : effect) : bool :=
  match e with Imwrite _ _ _ => true | _ => false end.

(** The effects of one step: what it added to [history]. *)
Definition added (before after : system) : list effect :=
  drop (length (history before)) (history after).

(** Following the playbacks through a list of effects: [Some playing] when
    every [Playsound] found no playback running and every [PlaysoundDone]
    found one, [None] otherwise. *)
Fixpoint playback_state (playing : bool) (es : list effect) : option bool :=
  match es with
  | [] => Some playing
  | Playsound _ _ :: es' => if playing then None else playback_state true es'
  | PlaysoundDone _ :: es' => if playing then playback_state false es' else None
  | _ :: es' => playback_state playing es'
  end.


(** Whether a frame's boxes hold a violation: a box at or above the
    threshold whose label is not a helmet label. *)
Definition violating (b : Box) : bool :=
  Qle_bool CONFIDENCE_THRESHOLD (conf b) && negb (helmet_label (label b)).

Definition compliant (b : Box) : bool :=
  Qle_bool CONFIDENCE_THRESHOLD (conf b) && helmet_label (label b).

Definition above_threshold (b : Box) : bool :=
  Qle_bool CONFIDENCE_THRESHOLD (conf b).

(** ** What holds in every state of the running program *)

(** Requests taken from the queue and not yet marked done. *)
Definition in_flight (s : system) : nat :=
  match worker s with InPlaysound _ => 1 | _ => 0 end.

Definition is_playing (s : system) : bool :=
  match worker s with InPlaysound _ => true | _ => false end.

(** The clock reading of the latest playback, started or finished. *)
Definition top_time (s : system) : Q :=
  match worker s with InPlaysound now => now | _ => last_time s end.

Definition worker_alive (s : system) : Prop :=
  match worker s with WorkerDied _ => False | _ => True end.

Definition not_after (t : Q) (e : effect) : Prop :=
  match e with Playsound _ now => (now <= t)%Q | _ => True end.

Record invariant (s : system) : Prop := mkInvariant {
  inv_maxsize : maxsize (audio_queue s) = 1%nat;
  inv_slot : (length (items (audio_queue s)) <= 1)%nat;
  inv_unfinished :
    unfinished_tasks (audio_queue s) = (length (items (audio_queue s)) + in_flight s)%nat;
  inv_alive : worker_alive s;
  inv_before : Forall (not_after (top_time s)) (history s);
  inv_window :
    forall w : Q, (length (List.filter (playsound_within w) (history s)) <= 1)%nat;
  inv_playing : playback_state false (history s) = Some (is_playing s)
}.

(** The state right after start-up on an empty disk. *)
Definition fresh_system : system :=
  mkSystem _audio_queue 0 AtGet Streaming {[SNAPSHOT_DIR := Dir]} [].

(** Effects that neither start nor end a playback. *)
Definition quiet (e : effect) : Prop :=
  match e with Playsound _ _ | PlaysoundDone _ => False | _ => True end.

(** ** Sample inputs *)

Definition sample_clock : datetime := mkDatetime 2024 3 7 9 5 1 250000.

Definition no_helmet_box : Box := mkBox 0.9 "no-helmet" (10, 20, 110, 220)%Z.
Definition helmet_box : Box := mkBox 0.9 "helmet" (200, 20, 300, 220)%Z.
Definition faint_box : Box := mkBox 0.4 "no-helmet" (10, 20, 110, 220)%Z.
Definition capital_box : Box := mkBox 0.9 "Helmet" (10, 20, 110, 220)%Z.

(** A frame with one bare head in it. *)
Definition violation_capture (r : imwrite_result) : capture :=
  mkCapture 0 [no_helmet_box] sample_clock r.

(** A violating frame, the worker taking the request at clock 10 and
    starting the playback, a second violating frame meanwhile. *)
Definition during_playback : list event :=
  [CapRead (ReadOk (violation_capture ImwriteTrue)); WorkerGet 10;
   CapRead (ReadOk (violation_capture ImwriteTrue))].

(** The frame as line 99 and line 102 see it. *)
Definition annotate (c : capture) : Frame :=
  overlay_counts (tally_boxes (mkFrame (shot c) []) (detections c)).

(** The same capture with another outcome of [cv2.imwrite], or with
    other boxes. *)
Definition with_imwrite (r : imwrite_result) (c : capture) : capture :=
  mkCapture (shot c) (detections c) (wall_clock c) r.

Definition with_detections (bs : list Box) (c : capture) : capture :=
  mkCapture (shot c) bs (wall_clock c) (imwrite_does c).

Definition is_yield (e : effect) : bool :=
  match e with Yield _ => true | _ => false end.

(** ** Reading the worker's effects *)

(** The clock readings of the playbacks, oldest first. *)
Definition playsound_clocks (es : list effect) : list Q :=
  flat_map (fun e => match e with Playsound _ now => [now] | _ => [] end) es.

(** Each clock reading is at least a cooldown after the one before it,
    the first one after [prev]. *)
Fixpoint spaced (prev : Q) (clocks : list Q) : Prop :=
  match clocks with
  | [] => True
  | t :: rest => (prev + ALERT_COOLDOWN <= t)%Q /\ spaced t rest
  end.

(** Whether an effect is a playback started at a clock reading in [[a, b)]. *)
Definition playsound_between (a b : Q) (e : effect) : bool :=
  match e with
  | Playsound _ now => Qle_bool a now && Qltb now b
  | _ => false
  end.

(** The effects of the worker thread. *)
Definition is_audio (e : effect) : bool :=
  match e with
  | Playsound _ _ | PlaysoundDone _ | PrintAudioError _ => true
  | _ => false
  end.

(** ** Reading the frame loop's effects and the schedule *)

Definition is_play_alert (e : effect) : bool :=
  match e with PlayAlert _ => true | _ => false end.

(** A request that [play_alert] put in the slot. *)
Definition is_accepted (e : effect) : bool :=
  match e with PlayAlert true => true | _ => false end.

(** What the frame loop shows and stores. *)
Definition is_video (e : effect) : bool := is_imwrite e || is_yield e.

Definition is_cap_read (e : event) : bool :=
  match e with CapRead _ => true | _ => false end.

(** The frames that [cap.read()] delivered in a schedule, in order. *)
Definition captures (es : list event) : list capture :=
  flat_map (fun e => match e with CapRead (ReadOk c) => [c] | _ => [] end) es.

Definition generator_died (s : system) : bool :=
  match generator s with GeneratorDied _ => true | _ => false end.

(** ** Reading the drawings *)





(** The same box with its label in lower case. *)
Definition lower_label (b : Box) : Box := mkBox (conf b) (Str.lower (label b)) (xyxy b).

(** ** The order of time on clock readings *)

Definition then_compare (c k : comparison) : comparison :=
  match c with Eq => k | Lt => Lt | Gt => Gt end.

(** How two clock readings compare, microseconds left out. *)
Definition datetime_compare (d1 d2 : datetime) : comparison :=
  then_compare (year d1 ?= year d2)%Z
    (then_compare (month d1 ?= month d2)%Z
       (then_compare (day d1 ?= day d2)%Z
          (then_compare (hour d1 ?= hour d2)%Z
             (then_compare (minute d1 ?= minute d2)%Z
                (second d1 ?= second d2)%Z)))).

(** ** The requests the worker took in a schedule *)

(** Following a schedule event by event: the requests whose pass is over,
    oldest first, each with its clock reading and the outcome of its
    playback, and the clock reading of the request taken last while its
    playback has not returned.  A request that is followed by another
    [WorkerGet] with no return of [playsound] in between was not played;
    it is entered with the outcome [unplayed]. *)
Definition note_event (unplayed : playsound_result)
    (acc : list (Q * playsound_result) * option Q) (e : event)
  : list (Q * playsound_result) * option Q :=
  match e with
  | CapRead _ => acc
  | WorkerGet now =>
      (fst acc ++ match snd acc with Some p => [(p, unplayed)] | None => [] end, Some now)
  | PlaysoundReturns r =>
      match snd acc with
      | Some p => (fst acc ++ [(p, r)], None)
      | None => acc
      end
  end.

(** The requests the worker took in a schedule: one for each [WorkerGet],
    in order, with the outcome of the [PlaysoundReturns] that follows it
    when there is one, and [unplayed] otherwise. *)
Definition requests_taken (unplayed : playsound_result) (es : list event)
  : list (Q * playsound_result) :=
  let acc := fold_left (note_event unplayed) es ([], None) in
  fst acc ++ match snd acc with Some p => [(p, unplayed)] | None => [] end.

(** The clock readings of the [WorkerGet] steps of a schedule. *)
Definition get_clocks (es : list event) : list Q :=
  flat_map (fun e => match e with WorkerGet now => [now] | _ => [] end) es.

(** What the end of a playback adds to the history. *)
Definition playsound_end (r : playsound_result) : list effect :=
  PlaysoundDone r :: match r with PlayOk => [] | PlayRaised e => [PrintAudioError e] end.

(** * Properties *)

(** ** Rational tests *)

Lemma Qltb_lt (x y : Q) : Qltb x y = true <-> (x < y)%Q.
Proof. unfold Qltb, Qlt. apply Z.ltb_lt. Qed.

Lemma Qltb_ge (x y : Q) : Qltb x y = false <-> (y <= x)%Q.
Proof. unfold Qltb, Qle. rewrite Z.ltb_ge. reflexivity. Qed.

Lemma Qle_bool_false (x y : Q) : Qle_bool x y = false <-> (y < x)%Q.
Proof.
  split; intros H.
  - apply Qnot_le_lt. intros Hle. apply Qle_bool_iff in Hle. congruence.
  - destruct (Qle_bool x y) eqn:E; [|reflexivity].
    apply Qle_bool_iff in E. lra.
Qed.

Lemma Qltb_negb_le (x y : Q) : Qltb x y = negb (Qle_bool y x).
Proof.
  destruct (Qle_bool y x) eqn:E; simpl.
  - apply Qltb_ge. now apply Qle_bool_iff.
  - apply Qltb_lt. now apply Qle_bool_false.
Qed.

Lemma cooldown_elapsed_true (last_time now : Q) :
  cooldown_elapsed last_time now = true <-> (ALERT_COOLDOWN <= now - last_time)%Q.
Proof. unfold cooldown_elapsed. apply Qle_bool_iff. Qed.

Lemma cooldown_elapsed_false (last_time now : Q) :
  cooldown_elapsed last_time now = false <-> (now - last_time < ALERT_COOLDOWN)%Q.
Proof. unfold cooldown_elapsed. apply Qle_bool_false. Qed.

Lemma ALERT_COOLDOWN_pos : (0 < ALERT_COOLDOWN)%Q.
Proof. reflexivity. Qed.

(** ** The worker's loop *)

Lemma fired_cooldown (last_time now : Q) (r : playsound_result) :
  fired (audio_iteration last_time now r) = cooldown_elapsed last_time now.
Proof.
  unfold fired, audio_iteration.
  destruct (cooldown_elapsed last_time now); reflexivity.
Qed.

Lemma audio_loop_cons (last_time now : Q) (r : playsound_result) reqs :
  audio_loop last_time ((now, r) :: reqs) =
  (fst (audio_loop (fst (audio_iteration last_time now r)) reqs),
   snd (audio_iteration last_time now r) ++
   snd (audio_loop (fst (audio_iteration last_time now r)) reqs)).
Proof.
  simpl. destruct (audio_iteration last_time now r) as [l es]. simpl.
  destruct (audio_loop l reqs); reflexivity.
Qed.

Lemma playsound_within_try (w now : Q) (r : playsound_result) :
  List.filter (playsound_within w) (try_playsound now r) =
  if Qle_bool w now && Qltb now (w + ALERT_COOLDOWN)
  then [Playsound ALERT_SOUND now] else [].
Proof.
  unfold try_playsound. cbn [List.filter playsound_within].
  destruct (Qle_bool w now && Qltb now (w + ALERT_COOLDOWN)), r; reflexivity.
Qed.

(** Every playback of the loop is at least a cooldown after the
    [last_time] the loop started from; so a window that opens at or before
    that [last_time] holds none, and any window holds at most one. *)
Lemma audio_loop_window (reqs : list (Q * playsound_result)) :
  forall (last_time w : Q),
    (length (List.filter (playsound_within w) (snd (audio_loop last_time reqs))) <= 1)%nat /\
    ((w <= last_time)%Q ->
     List.filter (playsound_within w) (snd (audio_loop last_time reqs)) = []).
Proof.
  induction reqs as [|[now r] reqs IH]; intros last_time w.
  - simpl. split; [lia | reflexivity].
  - rewrite audio_loop_cons. cbn [snd]. rewrite List.filter_app.
    unfold audio_iteration.
    destruct (cooldown_elapsed last_time now) eqn:E; cbn [fst snd].
    + apply cooldown_elapsed_true in E.
      pose proof ALERT_COOLDOWN_pos as Hc.
      destruct (IH now w) as [IHa IHb].
      rewrite playsound_within_try.
      destruct (Qle_bool w now) eqn:Ew; cbn [andb].
      * apply Qle_bool_iff in Ew. rewrite (IHb Ew).
        split.
        -- destruct (Qltb now (w + ALERT_COOLDOWN)); simpl; lia.
        -- intros Hw.
           assert (Qltb now (w + ALERT_COOLDOWN) = false) as ->; [|reflexivity].
           apply Qltb_ge. lra.
      * apply Qle_bool_false in Ew. split; [exact IHa|].
        intros Hw. lra.
    + cbn [List.filter app]. apply IH.
Qed.

(** ** The invariant of the running program *)

Lemma playback_state_app (es es' : list effect) :
  forall playing,
    playback_state playing (es ++ es') =
    match playback_state playing es with
    | Some playing' => playback_state playing' es'
    | None => None
    end.
Proof.
  induction es as [|e es IH]; intros playing; [reflexivity|].
  destruct e; simpl; try apply IH; destruct playing; auto.
Qed.

Lemma playback_state_quiet (es : list effect) :
  Forall quiet es -> forall playing, playback_state playing es = Some playing.
Proof.
  induction 1 as [|e es He _ IH]; intros playing; [reflexivity|].
  destruct e; simpl in *; auto; contradiction.
Qed.

Lemma filter_within_quiet (w : Q) (es : list effect) :
  Forall quiet es -> List.filter (playsound_within w) es = [].
Proof.
  induction 1 as [|e es He _ IH]; [reflexivity|].
  destruct e; simpl in *; auto; contradiction.
Qed.

Lemma not_after_quiet (t : Q) (es : list effect) :
  Forall quiet es -> Forall (not_after t) es.
Proof.
  intros H. eapply Forall_impl; [exact H|].
  intros e He. destruct e; simpl in *; auto; contradiction.
Qed.

Lemma not_after_mono (t t' : Q) (es : list effect) :
  (t <= t')%Q -> Forall (not_after t) es -> Forall (not_after t') es.
Proof.
  intros Ht H. eapply Forall_impl; [exact H|].
  intros e He. destruct e; simpl in *; auto. lra.
Qed.

(** A window that opens after every playback so far holds none of them. *)
Lemma filter_within_before (t w : Q) (es : list effect) :
  (t < w)%Q -> Forall (not_after t) es -> List.filter (playsound_within w) es = [].
Proof.
  intros Htw. induction 1 as [|e es He _ IH]; [reflexivity|].
  destruct e; simpl in *; auto.
  assert (Qle_bool w now = false) as ->; [|exact IH].
  apply Qle_bool_false. lra.
Qed.

Lemma invariant_set_generator (g : generator_pc) (s : system) :
  invariant s -> invariant (set_generator g s).
Proof. intros []. constructor; assumption. Qed.

Lemma invariant_set_fs (m : gmap string node) (s : system) :
  invariant s -> invariant (set_fs m s).
Proof. intros []. constructor; assumption. Qed.

Lemma invariant_emit_quiet (es : list effect) (s : system) :
  Forall quiet es -> invariant s -> invariant (emit es s).
Proof.
  intros Hq []. constructor; try assumption.
  - change (Forall (not_after (top_time s)) (history s ++ es)).
    apply Forall_app. split; [assumption | now apply not_after_quiet].
  - intros w. cbn [history emit]. rewrite List.filter_app, (filter_within_quiet w es Hq).
    rewrite app_nil_r. auto.
  - cbn [history emit]. rewrite playback_state_app, inv_playing0.
    now apply playback_state_quiet.
Qed.

Lemma invariant_set_queue (q : Queue) (s : system) :
  maxsize q = 1%nat ->
  (length (items q) <= 1)%nat ->
  unfinished_tasks q = (length (items q) + in_flight s)%nat ->
  invariant s -> invariant (set_queue q s).
Proof. intros H1 H2 H3 []. constructor; assumption. Qed.

(** [play_alert] on the program's queue: dropped when the slot is taken,
    put in the slot when it is free; it never waits. *)
Lemma play_alert_slot (q : Queue) :
  maxsize q = 1%nat ->
  play_alert q =
  Returned (match items q with
            | [] => mkQueue (maxsize q) [1%Z] (S (unfinished_tasks q))
            | _ :: _ => q
            end).
Proof.
  intros Hm. unfold play_alert, PyQueue.empty, PyQueue.put, PyQueue.full.
  destruct (items q) eqn:E; [|reflexivity].
  rewrite Hm. reflexivity.
Qed.

Lemma alert_and_snapshot_invariant (c : capture) (annotated : Frame) (s s' : system) :
  invariant s -> alert_and_snapshot c annotated s = Some s' -> invariant s'.
Proof.
  intros Hinv. unfold alert_and_snapshot.
  rewrite (play_alert_slot _ (inv_maxsize s Hinv)).
  set (q' := match items (audio_queue s) with [] => _ | _ => _ end).
  assert (invariant (emit [PlayAlert (PyQueue.empty (audio_queue s));
                           Imwrite (snapshot_filename (strftime (wall_clock c))) annotated
                                   (imwrite_does c)] (set_queue q' s))) as Hs1.
  { apply invariant_emit_quiet; [repeat constructor|].
    pose proof (inv_maxsize s Hinv) as Hm.
    pose proof (inv_slot s Hinv) as Hl.
    pose proof (inv_unfinished s Hinv) as Hu.
    subst q'. destruct (items (audio_queue s)) eqn:E;
      apply invariant_set_queue; rewrite ?E; simpl in *; auto; lia. }
  destruct (imwrite_does c); intros [= <-]; auto using invariant_set_fs, invariant_set_generator.
Qed.

Lemma generate_frames_step_invariant (rd : cap_read) (s s' : system) :
  invariant s -> generate_frames_step rd s = Some s' -> invariant s'.
Proof.
  intros Hinv. unfold generate_frames_step.
  destruct (generator s); try discriminate.
  destruct rd as [|c].
  - intros [= <-]. now apply invariant_set_generator.
  - destruct (no_helmet_detected _).
    + destruct (alert_and_snapshot c _ s) as [s1|] eqn:E; [|discriminate].
      apply alert_and_snapshot_invariant in E; [|assumption].
      destruct (generator s1); intros [= <-]; auto.
      apply invariant_emit_quiet; [repeat constructor | assumption].
    + intros [= <-]. apply invariant_emit_quiet; [repeat constructor | assumption].
Qed.

Lemma worker_get_invariant (now : Q) (s s' : system) :
  invariant s -> worker_get now s = Some s' -> invariant s'.
Proof.
  destruct s as [[mx its un] lt wk g m h].
  intros [Hm Hl Hu Ha Hb Hw Hp]. unfold worker_get.
  cbn [worker audio_queue last_time] in *. unfold top_time, in_flight, is_playing in *.
  cbn [worker audio_queue last_time history maxsize items unfinished_tasks] in *.
  destruct wk; try discriminate.
  unfold PyQueue.get. cbn [items maxsize unfinished_tasks].
  destruct its as [|x rest]; [discriminate|].
  cbn [length] in *.
  destruct (cooldown_elapsed lt now) eqn:E.
  - apply cooldown_elapsed_true in E. pose proof ALERT_COOLDOWN_pos as Hc.
    intros [= <-]. constructor; cbn; try (assumption || lia || exact I).
    + apply Forall_app. split.
      * apply (not_after_mono lt); [lra | assumption].
      * repeat constructor. cbn. lra.
    + intros w. rewrite List.filter_app. cbn [List.filter playsound_within].
      destruct (Qle_bool w now) eqn:Ew; cbn [andb].
      * apply Qle_bool_iff in Ew.
        destruct (Qltb now (w + ALERT_COOLDOWN)) eqn:Ex.
        -- apply Qltb_lt in Ex.
           rewrite (filter_within_before lt w h); [simpl; lia | lra | assumption].
        -- rewrite app_nil_r. apply Hw.
      * rewrite app_nil_r. apply Hw.
    + rewrite playback_state_app, Hp. reflexivity.
  - unfold PyQueue.task_done. cbn [unfinished_tasks maxsize items].
    destruct un as [|n]; [lia|].
    intros [= <-]. constructor; cbn; try (assumption || lia || exact I).
Qed.

Lemma playsound_returns_invariant (r : playsound_result) (s s' : system) :
  invariant s -> playsound_returns r s = Some s' -> invariant s'.
Proof.
  destruct s as [[mx its un] lt wk g m h].
  intros [Hm Hl Hu Ha Hb Hw Hp]. unfold playsound_returns.
  unfold top_time, in_flight, is_playing in *.
  cbn [worker audio_queue last_time history maxsize items unfinished_tasks] in *.
  destruct wk as [|now|]; try discriminate.
  unfold PyQueue.task_done.
  cbn [set_last_time emit audio_queue unfinished_tasks maxsize items].
  destruct un as [|n]; [lia|].
  assert (Forall quiet (match r with PlayOk => [] | PlayRaised e => [PrintAudioError e] end))
    as Hq by (destruct r; repeat constructor).
  intros [= <-]. constructor; cbn; try (assumption || lia || exact I).
  - apply Forall_app. split; [assumption|].
    constructor; [exact I | now apply not_after_quiet].
  - intros w. rewrite List.filter_app. cbn [List.filter playsound_within].
    rewrite (filter_within_quiet w _ Hq), app_nil_r. apply Hw.
  - rewrite playback_state_app, Hp. cbn. now apply playback_state_quiet.
Qed.

Lemma step_invariant (e : event) (s s' : system) :
  invariant s -> step e s = Some s' -> invariant s'.
Proof.
  destruct e; cbn [step];
    eauto using generate_frames_step_invariant, worker_get_invariant,
                playsound_returns_invariant.
Qed.

Lemma run_invariant (es : list event) :
  forall s s', invariant s -> run es s = Some s' -> invariant s'.
Proof.
  induction es as [|e es IH]; intros s s' Hinv; cbn [run].
  - now intros [= <-].
  - destruct (step e s) as [s1|] eqn:E; [|discriminate].
    apply IH. eapply step_invariant; eassumption.
Qed.

Lemma startup_invariant (disk : gmap string node) (s0 : system) :
  startup disk = Returned s0 -> invariant s0.
Proof.
  unfold startup. destruct (makedirs_exist_ok SNAPSHOT_DIR disk); try discriminate.
  intros [= <-]. constructor; cbn; try (lia || exact I || reflexivity).
  constructor.
Qed.

Lemma reachable_invariant (s : system) : reachable s -> invariant s.
Proof.
  intros (disk & s0 & es & Hs0 & Hrun).
  eapply run_invariant; [|exact Hrun]. eapply startup_invariant, Hs0.
Qed.

(** A pass of the worker in the running program, [get()] then the return of
    [playsound] when it was called, is a pass of [audio_iteration]. *)
Lemma worker_pass (now : Q) (r : playsound_result) (s : system) :
  invariant s -> worker s = AtGet -> items (audio_queue s) <> [] ->
  exists s',
    (if cooldown_elapsed (last_time s) now
     then match worker_get now s with
          | Some s1 => playsound_returns r s1
          | None => None
          end
     else worker_get now s) = Some s' /\
    worker s' = AtGet /\
    last_time s' = fst (audio_iteration (last_time s) now r) /\
    history s' = history s ++ snd (audio_iteration (last_time s) now r).
Proof.
  destruct s as [[mx its un] lt wk g m h].
  intros [Hm Hl Hu Ha Hb Hw Hp] Hwk Hits. unfold in_flight in *.
  cbn [worker audio_queue last_time history maxsize items unfinished_tasks] in *.
  subst wk. destruct its as [|x rest]; [congruence|].
  destruct un as [|n]; [cbn in Hu; lia|].
  unfold audio_iteration, worker_get, playsound_returns, PyQueue.get, PyQueue.task_done.
  cbn [worker audio_queue last_time history maxsize items unfinished_tasks].
  destruct (cooldown_elapsed lt now) eqn:E; cbn.
  - eexists. split; [reflexivity|]. cbn. repeat split.
    rewrite <- app_assoc. destruct r; reflexivity.
  - eexists. split; [reflexivity|]. cbn. repeat split. now rewrite app_nil_r.
Qed.

(** ** Claims about the alert debouncer *)

(** C1. Whatever requests the worker takes from the queue and whatever the
    clock reads for each, at most one playback starts with a clock reading
    in any window [[w, w + ALERT_COOLDOWN)]: for the worker's loop run from
    any [last_time] (line 32 starts it from 0), and for the history of
    every state the running program reaches. *)
Theorem one_alert_per_cooldown_window :
  (forall (last_time : Q) (reqs : list (Q * playsound_result)) (w : Q),
     (length (List.filter (playsound_within w) (snd (audio_loop last_time reqs))) <= 1)%nat) /\
  (forall (s : system) (w : Q),
     reachable s ->
     (length (List.filter (playsound_within w) (history s)) <= 1)%nat).
Proof.
  split.
  - intros last_time reqs w. apply audio_loop_window.
  - intros s w Hs. apply inv_window. now apply reachable_invariant.
Qed.

Lemma one_alert_per_cooldown_window_witness :
  (length (List.filter (playsound_within 8)
             (snd (_audio_worker [(10%Q, PlayOk); (12%Q, PlayOk); (16%Q, PlayRaised "x")])))
   <= 1)%nat /\
  match run during_playback fresh_system with
  | Some s => (length (List.filter (playsound_within 8) (history s)) <= 1)%nat
  | None => False
  end.
Proof.
  destruct one_alert_per_cooldown_window as [H1 H2]. split; [apply H1|].
  destruct (run during_playback fresh_system) as [s|] eqn:E; [|discriminate E].
  apply H2. exists ∅, fresh_system, during_playback. split; [reflexivity | exact E].
Defined.

(** C8, as the code has it.  A clock reading earlier than [last_time] is
    not clamped: the pass is suppressed and [last_time] stays where it
    was.  The worker is not stuck for good: a pass at any clock reading
    from [last_time + ALERT_COOLDOWN] on fires. *)
Theorem clock_backward_policy (last_time now : Q) (r : playsound_result) :
  (now - last_time < 0)%Q ->
  audio_iteration last_time now r = (last_time, []) /\
  forall (later : Q) (r' : playsound_result),
    (last_time + ALERT_COOLDOWN <= later)%Q ->
    fired (audio_iteration last_time later r') = true /\
    fst (audio_iteration last_time later r') = later.
Proof.
  intros Hneg. pose proof ALERT_COOLDOWN_pos as Hc. split.
  - unfold audio_iteration.
    assert (cooldown_elapsed last_time now = false) as ->; [|reflexivity].
    apply cooldown_elapsed_false. lra.
  - intros later r' Hl.
    assert (cooldown_elapsed last_time later = true) as E.
    { apply cooldown_elapsed_true. lra. }
    rewrite fired_cooldown. unfold audio_iteration. rewrite E. now split.
Qed.

Lemma clock_backward_policy_witness :
  audio_iteration 100 50 PlayOk = (100%Q, []) /\
  forall (later : Q) (r' : playsound_result),
    (100 + ALERT_COOLDOWN <= later)%Q ->
    fired (audio_iteration 100 later r') = true /\
    fst (audio_iteration 100 later r') = later.
Proof. apply (clock_backward_policy 100 50 PlayOk). reflexivity. Defined.

(** C8 as stated fails: the last alert fired at clock 100, the clock is
    set back and the next request is taken at clock 50; the elapsed time is
    negative and the request is suppressed, not played at once. *)
Lemma clock_backward_suppressed :
  (50 - 100 < 0)%Q /\
  fired (audio_iteration 100 50 PlayOk) = false /\
  audio_iteration 100 50 PlayOk = (100%Q, []) /\
  fired (audio_iteration 100 (1049 # 10) PlayOk) = false.
Proof. repeat split. Qed.

(** C10. When a pass gets through the cooldown test and [playsound]
    raises, the exception is caught and printed, [last_time] becomes [now]
    as after a playback that worked, and the loop goes on with the next
    request: nothing fires before [now + ALERT_COOLDOWN], and any request
    from then on fires.  In the running program the worker is back in
    [get()] with [last_time = now]. *)
Theorem failed_playback_consumes_cooldown (last now : Q) (e : string) :
  cooldown_elapsed last now = true ->
  audio_iteration last now (PlayRaised e) =
    (now, [Playsound ALERT_SOUND now; PlaysoundDone (PlayRaised e); PrintAudioError e]) /\
  fst (audio_iteration last now (PlayRaised e)) =
    fst (audio_iteration last now PlayOk) /\
  (forall reqs : list (Q * playsound_result),
     audio_loop last ((now, PlayRaised e) :: reqs) =
     (fst (audio_loop now reqs),
      try_playsound now (PlayRaised e) ++ snd (audio_loop now reqs))) /\
  (forall (now' : Q) (r' : playsound_result),
     (now' - now < ALERT_COOLDOWN)%Q -> audio_iteration now now' r' = (now, [])) /\
  (forall (now' : Q) (r' : playsound_result),
     (now' - now >= ALERT_COOLDOWN)%Q -> fired (audio_iteration now now' r') = true) /\
  (forall s : system,
     reachable s -> worker s = InPlaysound now ->
     exists s',
       playsound_returns (PlayRaised e) s = Some s' /\
       worker s' = AtGet /\ last_time s' = now /\
       history s' = history s ++ [PlaysoundDone (PlayRaised e); PrintAudioError e]).
Proof.
  intros E. unfold audio_iteration at 1 2 3. rewrite E.
  split; [reflexivity|]. split; [reflexivity|]. split.
  { intros reqs. rewrite audio_loop_cons. unfold audio_iteration. rewrite E. reflexivity. }
  split.
  { intros now' r' H. apply cooldown_elapsed_false in H.
    unfold audio_iteration. now rewrite H. }
  split.
  { intros now' r' H. rewrite fired_cooldown. now apply cooldown_elapsed_true. }
  intros s Hs Hw. apply reachable_invariant in Hs.
  destruct s as [[mx its un] lt wk g m h].
  destruct Hs as [Hm Hl Hu Ha Hb Hwin Hp]. unfold in_flight in *.
  cbn [worker audio_queue last_time history maxsize items unfinished_tasks] in *.
  subst wk. destruct un as [|n]; [lia|].
  eexists. split; [reflexivity|]. repeat split.
Qed.

Lemma failed_playback_consumes_cooldown_witness :
  audio_iteration 0 10 (PlayRaised "no audio device") =
    (10%Q, [Playsound ALERT_SOUND 10; PlaysoundDone (PlayRaised "no audio device");
            PrintAudioError "no audio device"]) /\
  audio_iteration 10 14 PlayOk = (10%Q, []) /\
  fired (audio_iteration 10 15 PlayOk) = true.
Proof.
  destruct (failed_playback_consumes_cooldown 0 10 "no audio device" eq_refl)
    as (H1 & _ & _ & H2 & H3 & _).
  split; [exact H1|]. split; [apply H2; reflexivity | apply H3; discriminate].
Defined.

(** ** Strings *)

Lemma append_cons (c : ascii) (s t : string) :
  (String c s ++ t)%string = String c (s ++ t)%string.
Proof. reflexivity. Qed.

Lemma append_nil (t : string) : (EmptyString ++ t)%string = t.
Proof. reflexivity. Qed.

Lemma prefix_append (sub : string) :
  forall s : string, String.prefix sub s = true <-> exists post, s = (sub ++ post)%string.
Proof.
  induction sub as [|a sub IH]; intros s.
  - split; [intros _; now exists s | intros _; destruct s; reflexivity].
  - destruct s as [|b s]; simpl.
    + split; [discriminate | intros [post H]; discriminate H].
    + destruct (ascii_dec a b) as [->|Hne].
      * rewrite IH. split; intros [post H]; exists post;
          rewrite append_cons in *; congruence.
      * split; [discriminate | intros [post H]; rewrite append_cons in H; congruence].
Qed.

(** [sub in s] holds exactly when [s] is some text, then [sub], then some
    text. *)
Lemma str_in_contains (sub s : string) :
  Str.str_in sub s = true <-> Str.contains s sub.
Proof.
  unfold Str.contains. induction s as [|c s IH]; cbn [Str.str_in].
  - rewrite prefix_append. split.
    + intros [post H]. now exists EmptyString, post.
    + intros (pre & post & H). destruct pre; [now exists post | discriminate H].
  - rewrite orb_true_iff, prefix_append, IH. split.
    + intros [[post H] | (pre & post & H)].
      * now exists EmptyString, post.
      * exists (String c pre), post. rewrite append_cons. now rewrite H.
    + intros (pre & post & H). destruct pre as [|c' pre].
      * left. now exists post.
      * right. exists pre, post. rewrite append_cons in H. congruence.
Qed.

Lemma helmet_label_contains (l : string) :
  helmet_label l = true <->
  Str.contains (Str.lower l) "helmet" /\ ~ Str.contains (Str.lower l) "no".
Proof.
  unfold helmet_label. rewrite andb_true_iff, negb_true_iff.
  rewrite <- !str_in_contains. rewrite not_true_iff_false. reflexivity.
Qed.

(** ** The loop over the boxes *)

Lemma box_step_below (t : tally) (b : Box) :
  above_threshold b = false -> box_step t b = t.
Proof.
  unfold above_threshold, box_step. rewrite Qltb_negb_le. now intros ->.
Qed.

Lemma box_step_above (t : tally) (b : Box) :
  above_threshold b = true ->
  box_step t b =
  let '(x1, y1, x2, y2) := xyxy b in
  let color := if helmet_label (label b) then green else red in
  mkTally (helmet_count t + (if helmet_label (label b) then 1 else 0))
          (no_helmet_count t + (if helmet_label (label b) then 0 else 1))
          (no_helmet_detected t || negb (helmet_label (label b)))
          (cv2_draw (PutText (TextDetection (label b) (conf b)) (x1, y1 - 10)%Z 0.7 color 2)
             (cv2_draw (Rectangle (x1, y1) (x2, y2) color 2) (frame t))).
Proof.
  unfold above_threshold, box_step. rewrite Qltb_negb_le. intros ->. cbn [negb].
  destruct (xyxy b) as [[[x1 y1] x2] y2].
  destruct (helmet_label (label b)); cbn;
    rewrite ?Nat.add_0_r, ?Nat.add_1_r, ?orb_false_r, ?orb_true_r; reflexivity.
Qed.

Lemma box_step_counts (t : tally) (b : Box) :
  helmet_count (box_step t b) = (helmet_count t + (if compliant b then 1 else 0))%nat /\
  no_helmet_count (box_step t b) = (no_helmet_count t + (if violating b then 1 else 0))%nat /\
  no_helmet_detected (box_step t b) = no_helmet_detected t || violating b.
Proof.
  unfold compliant, violating. fold (above_threshold b).
  destruct (above_threshold b) eqn:E; cbn [andb].
  - rewrite (box_step_above _ _ E). destruct (xyxy b) as [[[x1 y1] x2] y2].
    cbn [helmet_count no_helmet_count no_helmet_detected].
    destruct (helmet_label (label b)); auto.
  - rewrite (box_step_below _ _ E), orb_false_r, !Nat.add_0_r. auto.
Qed.

Lemma fold_box_step_counts (bs : list Box) :
  forall t : tally,
    helmet_count (fold_left box_step bs t) =
      (helmet_count t + length (List.filter compliant bs))%nat /\
    no_helmet_count (fold_left box_step bs t) =
      (no_helmet_count t + length (List.filter violating bs))%nat /\
    no_helmet_detected (fold_left box_step bs t) =
      no_helmet_detected t || existsb violating bs.
Proof.
  induction bs as [|b bs IH]; intros t; cbn [fold_left List.filter existsb length].
  - rewrite !Nat.add_0_r, orb_false_r. auto.
  - destruct (IH (box_step t b)) as (-> & -> & ->).
    destruct (box_step_counts t b) as (-> & -> & ->).
    rewrite orb_assoc.
    destruct (compliant b), (violating b); cbn [length]; repeat split; lia.
Qed.

Lemma fold_box_step_filter (bs : list Box) :
  forall t : tally,
    fold_left box_step (List.filter above_threshold bs) t = fold_left box_step bs t.
Proof.
  induction bs as [|b bs IH]; intros t; [reflexivity|].
  cbn [List.filter fold_left]. destruct (above_threshold b) eqn:E.
  - cbn [fold_left]. apply IH.
  - rewrite (box_step_below _ _ E). apply IH.
Qed.

Lemma play_alert_returns (q : Queue) :
  exists q', play_alert q = Returned q' /\
             (items q <> [] -> q' = q) /\
             (items q = [] -> items q' = [1%Z] /\ maxsize q' = maxsize q).
Proof.
  unfold play_alert, PyQueue.empty, PyQueue.put, PyQueue.full.
  destruct (items q) as [|x rest] eqn:E.
  - destruct (maxsize q) as [|m] eqn:Em; cbn; eexists; (split; [reflexivity|]);
      (split; [congruence | intros _; cbn; auto]).
  - exists q. split; [reflexivity|]. split; [auto | discriminate].
Qed.

Lemma tally_flag (f : Frame) (bs : list Box) :
  no_helmet_detected (tally_boxes f bs) = existsb violating bs.
Proof. unfold tally_boxes. now destruct (fold_box_step_counts bs (mkTally 0 0 false f)) as (_ & _ & ->). Qed.

Lemma added_emit (s : system) (g : generator_pc) (q : Queue) (m : gmap string node)
      (es : list effect) :
  added s (mkSystem q (last_time s) (worker s) g m (history s ++ es)) = es.
Proof. unfold added. cbn [history]. apply drop_app_length. Qed.

(** What a frame with a violation does, for each outcome of [imwrite]. *)
Lemma generate_frames_step_violation (s : system) (c : capture) :
  generator s = Streaming ->
  existsb violating (detections c) = true ->
  exists q',
    play_alert (audio_queue s) = Returned q' /\
    generate_frames_step (ReadOk c) s =
    Some (mkSystem q' (last_time s) (worker s)
            (match imwrite_does c with
             | ImwriteRaised => GeneratorDied "cv2.error"
             | _ => Streaming
             end)
            (match imwrite_does c with
             | ImwriteTrue =>
                 <[snapshot_filename (strftime (wall_clock c)) := File (annotate c)]> (fs s)
             | _ => fs s
             end)
            (history s ++
             [PlayAlert (PyQueue.empty (audio_queue s));
              Imwrite (snapshot_filename (strftime (wall_clock c))) (annotate c)
                      (imwrite_does c)] ++
             match imwrite_does c with
             | ImwriteRaised => []
             | _ => [Yield (annotate c)]
             end)).
Proof.
  intros Hg Hv. unfold generate_frames_step, alert_and_snapshot. rewrite Hg, tally_flag, Hv.
  destruct (play_alert_returns (audio_queue s)) as (q' & Hq & _).
  exists q'. split; [exact Hq|]. rewrite Hq. fold (annotate c).
  destruct (imwrite_does c); cbn; rewrite ?Hg; unfold emit, set_queue, set_fs, set_generator;
    cbn; rewrite ?Hg, <- ?app_assoc; reflexivity.
Qed.

Lemma generate_frames_step_clear (s : system) (c : capture) :
  generator s = Streaming ->
  existsb violating (detections c) = false ->
  generate_frames_step (ReadOk c) s = Some (emit [Yield (annotate c)] s).
Proof.
  intros Hg Hv. unfold generate_frames_step. now rewrite Hg, tally_flag, Hv.
Qed.

(** ** Claims about snapshots and classification *)

(** C3. A frame with at least one violation at or above the threshold
    makes exactly one call of [cv2.imwrite], and a frame with none makes no
    call, whatever the queue holds and whatever the worker's [last_time]
    and position are: the frame loop never reads the cooldown state, and
    the snapshot is attempted also when [play_alert] drops the request. *)
Theorem snapshot_per_violating_frame (s : system) (c : capture) :
  generator s = Streaming ->
  exists s',
    generate_frames_step (ReadOk c) s = Some s' /\
    List.filter is_imwrite (added s s') =
      (if existsb violating (detections c)
       then [Imwrite (snapshot_filename (strftime (wall_clock c))) (annotate c)
                     (imwrite_does c)]
       else []) /\
    last_time s' = last_time s /\ worker s' = worker s /\
    (items (audio_queue s) <> [] -> audio_queue s' = audio_queue s).
Proof.
  intros Hg. destruct (existsb violating (detections c)) eqn:Hv.
  - destruct (generate_frames_step_violation s c Hg Hv) as (q' & Hq & ->).
    eexists. split; [reflexivity|]. rewrite added_emit.
    split; [destruct (imwrite_does c); reflexivity|].
    split; [reflexivity|]. split; [reflexivity|].
    intros Hne. cbn. destruct (play_alert_returns (audio_queue s)) as (q2 & Hq2 & Hdrop & _).
    rewrite Hq in Hq2. injection Hq2 as <-. auto.
  - rewrite (generate_frames_step_clear s c Hg Hv).
    eexists. split; [reflexivity|]. unfold emit. rewrite added_emit. repeat split.
Qed.

Lemma snapshot_per_violating_frame_witness :
  exists s',
    generate_frames_step (ReadOk (violation_capture ImwriteTrue))
      (mkSystem (mkQueue 1 [1%Z] 1) 100 AtGet Streaming {[SNAPSHOT_DIR := Dir]} []) = Some s' /\
    List.filter is_imwrite
      (added (mkSystem (mkQueue 1 [1%Z] 1) 100 AtGet Streaming {[SNAPSHOT_DIR := Dir]} []) s') =
      [Imwrite "snapshots/no_helmet_20240307_090501.jpg"
               (annotate (violation_capture ImwriteTrue)) ImwriteTrue] /\
    audio_queue s' = mkQueue 1 [1%Z] 1.
Proof.
  destruct (snapshot_per_violating_frame
              (mkSystem (mkQueue 1 [1%Z] 1) 100 AtGet Streaming {[SNAPSHOT_DIR := Dir]} [])
              (violation_capture ImwriteTrue) eq_refl) as (s' & H1 & H2 & _ & _ & H3).
  exists s'. split; [exact H1|]. split; [exact H2|]. apply H3. discriminate.
Defined.

Lemma above_threshold_false (b : Box) :
  above_threshold b = false <-> (conf b < CONFIDENCE_THRESHOLD)%Q.
Proof. unfold above_threshold. apply Qle_bool_false. Qed.

Lemma above_threshold_true (b : Box) :
  above_threshold b = true <-> (CONFIDENCE_THRESHOLD <= conf b)%Q.
Proof. unfold above_threshold. apply Qle_bool_iff. Qed.

(** C5. A box whose confidence is below the threshold leaves the counts,
    the flag and the frame as they were: the loop gives the same tally,
    drawing included, as on the list without the boxes below the
    threshold, and the whole pass of the frame loop (alert request,
    snapshot, frame sent) is the same. *)
Theorem below_threshold_excluded :
  (forall (t : tally) (b : Box),
     (conf b < CONFIDENCE_THRESHOLD)%Q -> box_step t b = t) /\
  (forall (f : Frame) (before after : list Box) (b : Box),
     (conf b < CONFIDENCE_THRESHOLD)%Q ->
     tally_boxes f (before ++ b :: after) = tally_boxes f (before ++ after)) /\
  (forall (f : Frame) (bs : list Box),
     tally_boxes f bs = tally_boxes f (List.filter above_threshold bs)) /\
  (forall (s : system) (c : capture),
     generate_frames_step (ReadOk c) s =
     generate_frames_step
       (ReadOk (with_detections (List.filter above_threshold (detections c)) c)) s).
Proof.
  split; [|split; [|split]].
  - intros t b Hb. apply box_step_below. now apply above_threshold_false.
  - intros f before after b Hb. unfold tally_boxes.
    rewrite !fold_left_app. cbn [fold_left].
    rewrite box_step_below; [reflexivity | now apply above_threshold_false].
  - intros f bs. unfold tally_boxes. now rewrite fold_box_step_filter.
  - intros s c. unfold generate_frames_step, with_detections. cbn [detections shot].
    unfold tally_boxes. rewrite fold_box_step_filter. reflexivity.
Qed.

Lemma below_threshold_excluded_witness :
  box_step (mkTally 0 0 false (mkFrame 0 [])) faint_box = mkTally 0 0 false (mkFrame 0 []) /\
  tally_boxes (mkFrame 0 []) ([helmet_box] ++ faint_box :: [no_helmet_box]) =
  tally_boxes (mkFrame 0 []) ([helmet_box] ++ [no_helmet_box]).
Proof.
  destruct below_threshold_excluded as (H1 & H2 & _).
  split; [apply H1 | apply H2]; reflexivity.
Defined.

Lemma filter_above_split (bs : list Box) :
  length (List.filter above_threshold bs) =
  (length (List.filter compliant bs) + length (List.filter violating bs))%nat.
Proof.
  induction bs as [|b bs IH]; [reflexivity|].
  cbn [List.filter]. unfold compliant at 1, violating at 1. fold (above_threshold b).
  destruct (above_threshold b), (helmet_label (label b)); cbn [andb negb length]; lia.
Qed.

(** C6, as the code has it.  The test is made on the lower-cased label: a
    box at or above the threshold is compliant exactly when its lower-cased
    label contains "helmet" and does not contain "no", and a violation
    otherwise.  The two counts are the numbers of compliant and of
    violating boxes, they add up to the number of boxes at or above the
    threshold, and the flag is set exactly when some box is a violation. *)
Theorem classification_partition :
  (forall b : Box,
     (compliant b = true <->
      (CONFIDENCE_THRESHOLD <= conf b)%Q /\
      Str.contains (Str.lower (label b)) "helmet" /\
      ~ Str.contains (Str.lower (label b)) "no") /\
     (violating b = true <->
      (CONFIDENCE_THRESHOLD <= conf b)%Q /\
      ~ (Str.contains (Str.lower (label b)) "helmet" /\
         ~ Str.contains (Str.lower (label b)) "no"))) /\
  (forall (f : Frame) (bs : list Box),
     helmet_count (tally_boxes f bs) = length (List.filter compliant bs) /\
     no_helmet_count (tally_boxes f bs) = length (List.filter violating bs) /\
     (helmet_count (tally_boxes f bs) + no_helmet_count (tally_boxes f bs))%nat =
       length (List.filter above_threshold bs) /\
     (no_helmet_detected (tally_boxes f bs) = true <->
      exists b, In b bs /\ violating b = true) /\
     (no_helmet_detected (tally_boxes f bs) = true <->
      (0 < no_helmet_count (tally_boxes f bs))%nat)).
Proof.
  split.
  - intros b. unfold compliant, violating. fold (above_threshold b).
    rewrite !andb_true_iff, negb_true_iff, above_threshold_true.
    rewrite <- helmet_label_contains. split; [reflexivity|].
    now rewrite not_true_iff_false.
  - intros f bs. unfold tally_boxes.
    destruct (fold_box_step_counts bs (mkTally 0 0 false f)) as (-> & -> & ->).
    cbn [helmet_count no_helmet_count no_helmet_detected orb].
    rewrite !Nat.add_0_l, filter_above_split.
    split; [reflexivity|]. split; [reflexivity|]. split; [reflexivity|].
    split.
    + apply existsb_exists.
    + rewrite existsb_exists. split.
      * intros (b & Hin & Hb).
        assert (In b (List.filter violating bs)) as H by (apply filter_In; auto).
        destruct (List.filter violating bs); [destruct H | cbn; lia].
      * intros Hlen. destruct (List.filter violating bs) as [|b rest] eqn:E; [cbn in Hlen; lia|].
        assert (In b (List.filter violating bs)) as H by (rewrite E; now left).
        apply filter_In in H. now exists b.
Qed.

Lemma classification_partition_witness :
  compliant helmet_box = true /\ violating no_helmet_box = true /\
  no_helmet_detected (tally_boxes (mkFrame 0 []) [helmet_box; no_helmet_box]) = true.
Proof.
  destruct classification_partition as [H1 H2].
  destruct (H2 (mkFrame 0 []) [helmet_box; no_helmet_box]) as (_ & _ & _ & H3 & _).
  split; [reflexivity|]. split; [reflexivity|].
  apply H3. exists no_helmet_box. split; [right; left|]; reflexivity.
Defined.

(** C6 as stated fails on the case of the letters.  The label "Helmet" does
    not contain "helmet", and the code counts the box as compliant; the
    label "NO helmet" contains "helmet" and does not contain "no", and the
    code counts it as a violation. *)
Lemma label_case_ignored :
  (Str.str_in "helmet" "Helmet" = false /\
   tally_boxes (mkFrame 0 []) [capital_box] =
   mkTally 1 0 false
     (mkFrame 0 [Rectangle (10, 20)%Z (110, 220)%Z green 2;
                 PutText (TextDetection "Helmet" 0.9) (10, 10)%Z 0.7 green 2])) /\
  (Str.str_in "helmet" "NO helmet" = true /\ Str.str_in "no" "NO helmet" = false /\
   tally_boxes (mkFrame 0 []) [mkBox 0.9 "NO helmet" (10, 20, 110, 220)%Z] =
   mkTally 0 1 true
     (mkFrame 0 [Rectangle (10, 20)%Z (110, 220)%Z red 2;
                 PutText (TextDetection "NO helmet" 0.9) (10, 10)%Z 0.7 red 2])).
Proof. repeat split. Qed.

(** ** Claims about the pending slot *)




(** ** Claims about the snapshot writer *)

(** C7, as the code has it.  The value [cv2.imwrite] returns is thrown
    away: when it returns [False] nothing is written, nothing is printed or
    raised, and the frame is sent and the stream goes on as after a write
    that worked; the two runs differ on the disk only.  An exception
    raised by [cv2.imwrite] is not caught and ends the generator before the
    frame is sent. *)
Theorem imwrite_failure_not_reported (s : system) (c : capture) :
  generator s = Streaming ->
  existsb violating (detections c) = true ->
  exists s_true s_false s_raised : system,
    generate_frames_step (ReadOk (with_imwrite ImwriteTrue c)) s = Some s_true /\
    generate_frames_step (ReadOk (with_imwrite ImwriteFalse c)) s = Some s_false /\
    generate_frames_step (ReadOk (with_imwrite ImwriteRaised c)) s = Some s_raised /\
    fs s_false = fs s /\
    generator s_false = Streaming /\
    added s s_false =
      [PlayAlert (PyQueue.empty (audio_queue s));
       Imwrite (snapshot_filename (strftime (wall_clock c))) (annotate c) ImwriteFalse;
       Yield (annotate c)] /\
    fs s_true = <[snapshot_filename (strftime (wall_clock c)) := File (annotate c)]> (fs s) /\
    generator s_true = generator s_false /\
    audio_queue s_true = audio_queue s_false /\
    List.filter is_yield (added s s_true) = List.filter is_yield (added s s_false) /\
    generator s_raised = GeneratorDied "cv2.error" /\
    List.filter is_yield (added s s_raised) = [].
Proof.
  intros Hg Hv.
  destruct (generate_frames_step_violation s (with_imwrite ImwriteTrue c) Hg Hv)
    as (q1 & Hq1 & ->).
  destruct (generate_frames_step_violation s (with_imwrite ImwriteFalse c) Hg Hv)
    as (q2 & Hq2 & ->).
  destruct (generate_frames_step_violation s (with_imwrite ImwriteRaised c) Hg Hv)
    as (q3 & Hq3 & ->).
  rewrite Hq1 in Hq2. injection Hq2 as <-.
  do 3 eexists. do 3 (split; [reflexivity|]).
  rewrite !added_emit. cbn. repeat split.
Qed.

Lemma imwrite_failure_not_reported_witness :
  exists s_false : system,
    generate_frames_step (ReadOk (violation_capture ImwriteFalse)) fresh_system = Some s_false /\
    fs s_false = fs fresh_system /\
    generator s_false = Streaming.
Proof.
  destruct (imwrite_failure_not_reported fresh_system (violation_capture ImwriteTrue)
              eq_refl eq_refl) as (_ & s_false & _ & _ & H & _ & Hfs & Hg & _).
  exists s_false. split; [exact H|]. split; [exact Hfs | exact Hg].
Defined.

(** C7 as stated fails: on a frame with a bare head, [cv2.imwrite] returns
    [False]; the generator goes on streaming, the frame is sent, no file is
    on the disk and nothing tells of the failure. *)
Lemma failed_write_goes_unnoticed :
  generate_frames_step (ReadOk (violation_capture ImwriteFalse)) fresh_system =
  Some (mkSystem (mkQueue 1 [1%Z] 1) 0 AtGet Streaming {[SNAPSHOT_DIR := Dir]}
          [PlayAlert true;
           Imwrite "snapshots/no_helmet_20240307_090501.jpg"
                   (annotate (violation_capture ImwriteFalse)) ImwriteFalse;
           Yield (annotate (violation_capture ImwriteFalse))]).
Proof. reflexivity. Qed.

(** ** Snapshot names *)

Lemma digit_inj (a b : Z) : digit a = digit b -> (a mod 10 = b mod 10)%Z.
Proof.
  unfold digit. intros H. apply (f_equal nat_of_ascii) in H.
  pose proof (Z.mod_pos_bound a 10 eq_refl) as Ha.
  pose proof (Z.mod_pos_bound b 10 eq_refl) as Hb.
  rewrite !nat_ascii_embedding in H; lia.
Qed.

Lemma strftime_to_second (d : datetime) : strftime (to_second d) = strftime d.
Proof. reflexivity. Qed.

Lemma snapshot_filename_inj (d1 d2 : datetime) :
  valid_datetime d1 -> valid_datetime d2 ->
  snapshot_filename (strftime d1) = snapshot_filename (strftime d2) ->
  to_second d1 = to_second d2.
Proof.
  intros (HY1 & Hm1 & Hd1 & HH1 & HM1 & HS1 & _) (HY2 & Hm2 & Hd2 & HH2 & HM2 & HS2 & _) H.
  unfold snapshot_filename, path_join, SNAPSHOT_DIR, strftime, four_digits, two_digits in H.
  rewrite ?append_cons, ?append_nil in H.
  injection H as Y3 Y2 Y1 Y0 m1 m0 d1' d0' h1 h0 mi1 mi0 s1 s0.
  apply digit_inj in Y3, Y2, Y1, Y0, m1, m0, d1', d0', h1, h0, mi1, mi0, s1, s0.
  unfold to_second.
  assert (year d1 = year d2) as -> by (Z.div_mod_to_equations; lia).
  assert (month d1 = month d2) as -> by (Z.div_mod_to_equations; lia).
  assert (day d1 = day d2) as -> by (Z.div_mod_to_equations; lia).
  assert (hour d1 = hour d2) as -> by (Z.div_mod_to_equations; lia).
  assert (minute d1 = minute d2) as -> by (Z.div_mod_to_equations; lia).
  assert (second d1 = second d2) as -> by (Z.div_mod_to_equations; lia).
  reflexivity.
Qed.

Lemma startup_disk (disk : gmap string node) :
  startup disk =
  match disk !! SNAPSHOT_DIR with
  | None => Returned (mkSystem _audio_queue 0 AtGet Streaming (<[SNAPSHOT_DIR := Dir]> disk) [])
  | Some Dir => Returned (mkSystem _audio_queue 0 AtGet Streaming disk [])
  | Some (File _) => Raised "FileExistsError"
  end.
Proof.
  unfold startup, makedirs_exist_ok.
  destruct (disk !! SNAPSHOT_DIR) as [[|f]|]; reflexivity.
Qed.

(** C9. The snapshot goes to [SNAPSHOT_DIR], which start-up creates when
    it is missing, under [no_helmet_<YYYYMMDD_HHMMSS>.jpg] made from the
    clock reading cut to the second.  Two clock readings give the same
    name exactly when they agree to the second; two snapshots written
    within one second go to one file, and the second one replaces the
    first. *)
Theorem snapshot_names :
  (forall d : datetime,
     snapshot_filename (strftime d) =
       (SNAPSHOT_DIR ++ "/no_helmet_" ++ strftime d ++ ".jpg")%string /\
     strftime d =
       (four_digits (year d) ++ two_digits (month d) ++ two_digits (day d) ++ "_" ++
        two_digits (hour d) ++ two_digits (minute d) ++ two_digits (second d))%string /\
     String.length (strftime d) = 15%nat) /\
  snapshot_filename (strftime sample_clock) = "snapshots/no_helmet_20240307_090501.jpg" /\
  (forall (disk : gmap string node),
     (disk !! SNAPSHOT_DIR = None ->
      exists s0, startup disk = Returned s0 /\ fs s0 = <[SNAPSHOT_DIR := Dir]> disk) /\
     (disk !! SNAPSHOT_DIR = Some Dir ->
      exists s0, startup disk = Returned s0 /\ fs s0 = disk) /\
     (forall s0, startup disk = Returned s0 -> fs s0 !! SNAPSHOT_DIR = Some Dir)) /\
  (forall d1 d2 : datetime,
     valid_datetime d1 -> valid_datetime d2 ->
     (to_second d1 <> to_second d2 ->
      snapshot_filename (strftime d1) <> snapshot_filename (strftime d2)) /\
     (to_second d1 = to_second d2 ->
      snapshot_filename (strftime d1) = snapshot_filename (strftime d2))) /\
  (forall (s : system) (c1 c2 : capture),
     generator s = Streaming ->
     existsb violating (detections c1) = true ->
     existsb violating (detections c2) = true ->
     imwrite_does c1 = ImwriteTrue -> imwrite_does c2 = ImwriteTrue ->
     to_second (wall_clock c1) = to_second (wall_clock c2) ->
     exists s1 s2 : system,
       generate_frames_step (ReadOk c1) s = Some s1 /\
       generate_frames_step (ReadOk c2) s1 = Some s2 /\
       fs s1 = <[snapshot_filename (strftime (wall_clock c1)) := File (annotate c1)]> (fs s) /\
       fs s2 = <[snapshot_filename (strftime (wall_clock c1)) := File (annotate c2)]> (fs s)).
Proof.
  split; [intros d; repeat split|].
  split; [reflexivity|].
  split.
  { intros disk. rewrite startup_disk. split; [|split].
    - intros ->. eexists. split; reflexivity.
    - intros ->. eexists. split; reflexivity.
    - intros s0. destruct (disk !! SNAPSHOT_DIR) as [[|f]|] eqn:E; intros [= <-]; cbn.
      + exact E.
      + apply lookup_insert_eq. }
  split.
  { intros d1 d2 Hv1 Hv2. split.
    - intros Hne Heq. apply Hne. now apply snapshot_filename_inj.
    - intros Heq. now rewrite <- (strftime_to_second d1), Heq, strftime_to_second. }
  intros s c1 c2 Hg Hv1 Hv2 Hw1 Hw2 Hsec.
  destruct (generate_frames_step_violation s c1 Hg Hv1) as (q1 & Hq1 & E1).
  rewrite Hw1 in E1.
  eexists. 
  match type of E1 with _ = Some ?s1 =>
    destruct (generate_frames_step_violation s1 c2 eq_refl Hv2) as (q2 & Hq2 & E2)
  end.
  rewrite Hw2 in E2. eexists.
  split; [exact E1|]. split; [exact E2|]. cbn [fs].
  split; [reflexivity|].
  rewrite <- (strftime_to_second (wall_clock c2)), <- Hsec, strftime_to_second.
  apply insert_insert_eq.
Qed.

Lemma snapshot_names_witness :
  snapshot_filename (strftime sample_clock) <>
    snapshot_filename (strftime (mkDatetime 2024 3 7 9 5 2 0)) /\
  snapshot_filename (strftime sample_clock) =
    snapshot_filename (strftime (mkDatetime 2024 3 7 9 5 1 999999)).
Proof.
  destruct snapshot_names as (_ & _ & _ & H & _).
  assert (valid_datetime sample_clock) as V1 by (cbv; intuition discriminate).
  split.
  - apply (H sample_clock (mkDatetime 2024 3 7 9 5 2 0) V1).
    + cbv; intuition discriminate.
    + discriminate.
  - apply (H sample_clock (mkDatetime 2024 3 7 9 5 1 999999) V1).
    + cbv; intuition discriminate.
    + reflexivity.
Defined.

(** ** The scenarios of the specification, run *)

Example scenario_helmet :
  generate_frames_step (ReadOk (mkCapture 0 [helmet_box] sample_clock ImwriteTrue)) fresh_system =
  Some (emit [Yield (annotate (mkCapture 0 [helmet_box] sample_clock ImwriteTrue))] fresh_system) /\
  tally_boxes (mkFrame 0 []) [helmet_box] =
  mkTally 1 0 false
    (mkFrame 0 [Rectangle (200, 20)%Z (300, 220)%Z green 2;
                PutText (TextDetection "helmet" 0.9) (200, 10)%Z 0.7 green 2]).
Proof. split; reflexivity. Qed.

Example scenario_no_helmet :
  generate_frames_step (ReadOk (violation_capture ImwriteTrue)) fresh_system =
  Some (mkSystem (mkQueue 1 [1%Z] 1) 0 AtGet Streaming
          (<["snapshots/no_helmet_20240307_090501.jpg" :=
               File (annotate (violation_capture ImwriteTrue))]> {[SNAPSHOT_DIR := Dir]})
          [PlayAlert true;
           Imwrite "snapshots/no_helmet_20240307_090501.jpg"
                   (annotate (violation_capture ImwriteTrue)) ImwriteTrue;
           Yield (annotate (violation_capture ImwriteTrue))]).
Proof. reflexivity. Qed.

Example scenario_faint :
  tally_boxes (mkFrame 0 []) [faint_box] = mkTally 0 0 false (mkFrame 0 []) /\
  annotate (mkCapture 0 [helmet_box; faint_box; no_helmet_box] sample_clock ImwriteTrue) =
  annotate (mkCapture 0 [helmet_box; no_helmet_box] sample_clock ImwriteTrue).
Proof. split; reflexivity. Qed.

(** * Further properties of the code *)

(** ** The worker's loop, continued *)

Lemma audio_loop_fst_snd (last : Q) (reqs : list (Q * playsound_result)) :
  audio_loop last reqs = (fst (audio_loop last reqs), snd (audio_loop last reqs)).
Proof. now destruct (audio_loop last reqs). Qed.

(** The loop over two batches of requests is the loop over the first, then
    the loop over the second from the [last_time] the first one left. *)
Theorem audio_loop_app (last : Q) (reqs1 reqs2 : list (Q * playsound_result)) :
  audio_loop last (reqs1 ++ reqs2) =
  (fst (audio_loop (fst (audio_loop last reqs1)) reqs2),
   snd (audio_loop last reqs1) ++ snd (audio_loop (fst (audio_loop last reqs1)) reqs2)).
Proof.
  revert last. induction reqs1 as [|[now r] reqs1 IH]; intros last.
  - cbn [app audio_loop fst snd]. apply audio_loop_fst_snd.
  - rewrite <- app_comm_cons, !audio_loop_cons, IH. cbn [fst snd].
    now rewrite app_assoc.
Qed.

Lemma playsound_clocks_app (es es' : list effect) :
  playsound_clocks (es ++ es') = playsound_clocks es ++ playsound_clocks es'.
Proof. unfold playsound_clocks. apply flat_map_app. Qed.

Lemma playsound_clocks_try (now : Q) (r : playsound_result) :
  playsound_clocks (try_playsound now r) = [now].
Proof. destruct r; reflexivity. Qed.

Lemma last_nonempty_default (x d d' : Q) (l : list Q) :
  List.last (x :: l) d = List.last (x :: l) d'.
Proof.
  revert x. induction l as [|y l IH]; intros x; [reflexivity|].
  change (List.last (y :: l) d = List.last (y :: l) d'). apply IH.
Qed.

Lemma last_cons_default (t d : Q) (l : list Q) : List.last (t :: l) d = List.last l t.
Proof. destruct l as [|x l]; [reflexivity|]. apply (last_nonempty_default x d t l). Qed.

(** X1. Whatever the clock does, the playbacks of the loop are each at least a
    cooldown after the one before, the first one after the [last_time] the
    loop started from; the [last_time] the loop ends with is the clock
    reading of its latest playback (the starting one when nothing was
    played), and it is never earlier than the starting one. *)
Theorem playbacks_spaced (reqs : list (Q * playsound_result)) :
  forall last : Q,
    spaced last (playsound_clocks (snd (audio_loop last reqs))) /\
    fst (audio_loop last reqs) =
      List.last (playsound_clocks (snd (audio_loop last reqs))) last /\
    (last <= fst (audio_loop last reqs))%Q.
Proof.
  induction reqs as [|[now r] reqs IH]; intros last.
  - cbn. repeat split. lra.
  - rewrite audio_loop_cons. cbn [fst snd]. rewrite playsound_clocks_app.
    unfold audio_iteration. destruct (cooldown_elapsed last now) eqn:E; cbn [fst snd].
    + apply cooldown_elapsed_true in E. pose proof ALERT_COOLDOWN_pos as Hc.
      destruct (IH now) as (Hs & Hl & Hle).
      rewrite playsound_clocks_try. cbn [app spaced].
      split; [split; [lra | exact Hs]|].
      split; [now rewrite last_cons_default | lra].
    + cbn [playsound_clocks flat_map app]. apply IH.
Qed.

(** X2. Which requests fire, and the [last_time] the loop ends with, depend on
    the clock readings only, not on whether [playsound] worked. *)
Theorem playsound_result_irrelevant (reqs1 : list (Q * playsound_result)) :
  forall (reqs2 : list (Q * playsound_result)) (last : Q),
    map fst reqs1 = map fst reqs2 ->
    fst (audio_loop last reqs1) = fst (audio_loop last reqs2) /\
    playsound_clocks (snd (audio_loop last reqs1)) =
    playsound_clocks (snd (audio_loop last reqs2)).
Proof.
  induction reqs1 as [|[now r1] reqs1 IH]; intros [|[now2 r2] reqs2] last H;
    try discriminate H.
  - split; reflexivity.
  - cbn [map fst] in H. injection H as <- H.
    rewrite !audio_loop_cons. cbn [fst snd]. rewrite !playsound_clocks_app.
    unfold audio_iteration. destruct (cooldown_elapsed last now); cbn [fst snd].
    + rewrite !playsound_clocks_try. destruct (IH reqs2 now H) as [-> ->]. now split.
    + exact (IH reqs2 last H).
Qed.

Lemma playsound_result_irrelevant_witness :
  fst (audio_loop 0 [(7%Q, PlayOk); (9%Q, PlayOk); (12%Q, PlayOk)]) =
  fst (audio_loop 0 [(7%Q, PlayRaised "a"); (9%Q, PlayOk); (12%Q, PlayRaised "b")]) /\
  playsound_clocks (snd (audio_loop 0 [(7%Q, PlayOk); (9%Q, PlayOk); (12%Q, PlayOk)])) =
  playsound_clocks
    (snd (audio_loop 0 [(7%Q, PlayRaised "a"); (9%Q, PlayOk); (12%Q, PlayRaised "b")])).
Proof.
  apply (playsound_result_irrelevant
           [(7%Q, PlayOk); (9%Q, PlayOk); (12%Q, PlayOk)]
           [(7%Q, PlayRaised "a"); (9%Q, PlayOk); (12%Q, PlayRaised "b")] 0).
  reflexivity.
Defined.

(** X3. The playbacks happen at clock readings of requests, in their order;
    and when every request comes at least a cooldown after the one before
    (the first one after [last_time]), every request is played. *)
Theorem spaced_requests_all_fire (reqs : list (Q * playsound_result)) :
  forall last : Q,
    playsound_clocks (snd (audio_loop last reqs)) `sublist_of` map fst reqs /\
    (spaced last (map fst reqs) ->
     playsound_clocks (snd (audio_loop last reqs)) = map fst reqs).
Proof.
  induction reqs as [|[now r] reqs IH]; intros last.
  - split; [constructor | reflexivity].
  - rewrite audio_loop_cons. cbn [fst snd map]. rewrite playsound_clocks_app.
    unfold audio_iteration. destruct (cooldown_elapsed last now) eqn:E; cbn [fst snd].
    + rewrite playsound_clocks_try. cbn [app]. destruct (IH now) as [Hsub Hall].
      split; [now constructor|]. intros [_ Hs]. now rewrite (Hall Hs).
    + cbn [playsound_clocks flat_map app]. destruct (IH last) as [Hsub Hall].
      split; [now constructor|]. intros [Hle _].
      apply cooldown_elapsed_false in E. lra.
Qed.

Lemma spaced_requests_all_fire_witness :
  playsound_clocks (snd (_audio_worker [(5%Q, PlayOk); (10%Q, PlayRaised "x"); (17%Q, PlayOk)])) =
  [5%Q; 10%Q; 17%Q].
Proof.
  apply (spaced_requests_all_fire [(5%Q, PlayOk); (10%Q, PlayRaised "x"); (17%Q, PlayOk)] 0).
  cbn. repeat split; discriminate.
Defined.

Lemma filter_length_impl {A : Type} (P P' : A -> bool) (l : list A) :
  (forall x, P x = true -> P' x = true) ->
  (length (List.filter P l) <= length (List.filter P' l))%nat.
Proof.
  intros H. induction l as [|x l IH]; [reflexivity|].
  cbn [List.filter]. destruct (P x) eqn:E.
  - rewrite (H x E). cbn [length]. lia.
  - destruct (P' x); cbn [length]; lia.
Qed.

Lemma filter_length_orb {A : Type} (P P' : A -> bool) (l : list A) :
  (length (List.filter (fun x => P x || P' x) l) <=
   length (List.filter P l) + length (List.filter P' l))%nat.
Proof.
  induction l as [|x l IH]; [reflexivity|].
  cbn [List.filter]. destruct (P x), (P' x); cbn [orb length]; lia.
Qed.

Lemma inject_succ (n : nat) :
  (inject_Z (Z.of_nat (S n)) == inject_Z (Z.of_nat n) + 1)%Q.
Proof. rewrite Nat2Z.inj_succ. unfold Z.succ. now rewrite inject_Z_plus. Qed.

(** A list of effects with at most one playback per cooldown window has at
    most [n] playbacks in [n] cooldowns. *)
Lemma windows_bound (es : list effect) :
  (forall w : Q, (length (List.filter (playsound_within w) es) <= 1)%nat) ->
  forall (n : nat) (w : Q),
    (length (List.filter
               (playsound_between w (w + inject_Z (Z.of_nat n) * ALERT_COOLDOWN)) es)
     <= n)%nat.
Proof.
  intros H1. induction n as [|n IH]; intros w.
  - etransitivity; [apply (filter_length_impl _ (fun _ => false))|].
    + intros [] Hx; cbn in Hx; try discriminate.
      apply andb_true_iff in Hx as [Ha Hb].
      apply Qle_bool_iff in Ha. apply Qltb_lt in Hb.
      unfold ALERT_COOLDOWN in Hb. change (inject_Z (Z.of_nat 0)) with 0%Q in Hb. lra.
    + clear. induction es as [|e es IH]; [reflexivity | exact IH].
  - etransitivity;
      [apply (filter_length_impl _
                (fun e => playsound_between w (w + inject_Z (Z.of_nat n) * ALERT_COOLDOWN) e
                          || playsound_within (w + inject_Z (Z.of_nat n) * ALERT_COOLDOWN) e))|].
    + intros [] Hx; cbn in Hx; try discriminate. cbn.
      apply andb_true_iff in Hx as [Ha Hb].
      rewrite Ha. cbn [andb].
      apply Qle_bool_iff in Ha. apply Qltb_lt in Hb.
      pose proof (inject_succ n) as Hn.
      unfold ALERT_COOLDOWN in *.
      set (x := inject_Z (Z.of_nat n)) in *.
      set (y := inject_Z (Z.of_nat (S n))) in *.
      destruct (Qltb now (w + x * 5)) eqn:E; [reflexivity|].
      apply Qltb_ge in E. cbn [orb].
      apply andb_true_iff. split; [apply Qle_bool_iff | apply Qltb_lt]; lra.
    + etransitivity; [apply filter_length_orb|].
      specialize (IH w). specialize (H1 (w + inject_Z (Z.of_nat n) * ALERT_COOLDOWN)%Q). lia.
Qed.

(** X4. In any stretch of [n] cooldowns, [[w, w + n * ALERT_COOLDOWN)], at most
    [n] playbacks start: for the worker's loop from any [last_time], and in
    the history of every state the running program reaches. *)
Theorem alert_rate_bound (n : nat) (w : Q) :
  (forall (last : Q) (reqs : list (Q * playsound_result)),
     (length (List.filter
                (playsound_between w (w + inject_Z (Z.of_nat n) * ALERT_COOLDOWN))
                (snd (audio_loop last reqs))) <= n)%nat) /\
  (forall s : system,
     reachable s ->
     (length (List.filter
                (playsound_between w (w + inject_Z (Z.of_nat n) * ALERT_COOLDOWN))
                (history s)) <= n)%nat).
Proof.
  split.
  - intros last reqs. apply windows_bound. intros w'. apply audio_loop_window.
  - intros s Hs. apply windows_bound. intros w'.
    apply inv_window. now apply reachable_invariant.
Qed.

Lemma alert_rate_bound_witness :
  (length (List.filter (playsound_between 3 (3 + inject_Z (Z.of_nat 2) * ALERT_COOLDOWN))
             (snd (_audio_worker
                     [(5%Q, PlayOk); (7%Q, PlayOk); (10%Q, PlayOk); (12%Q, PlayOk);
                      (15%Q, PlayOk)]))) <= 2)%nat /\
  match run during_playback fresh_system with
  | Some s =>
      (length (List.filter (playsound_between 3 (3 + inject_Z (Z.of_nat 2) * ALERT_COOLDOWN))
                 (history s)) <= 2)%nat
  | None => False
  end.
Proof.
  destruct (alert_rate_bound 2 3) as [H1 H2]. split; [apply H1|].
  destruct (run during_playback fresh_system) as [s|] eqn:E; [|discriminate E].
  apply H2. exists ∅, fresh_system, during_playback. split; [reflexivity | exact E].
Defined.

(** ** The steps of the running program, case by case *)

Lemma run_app (es1 es2 : list event) :
  forall s : system,
    run (es1 ++ es2) s =
    match run es1 s with Some s1 => run es2 s1 | None => None end.
Proof.
  induction es1 as [|e es1 IH]; intros s; [reflexivity|].
  cbn [app run]. destruct (step e s); [apply IH | reflexivity].
Qed.

Lemma run_preserves (P : system -> Prop) :
  (forall e s s', P s -> step e s = Some s' -> P s') ->
  forall es s s', P s -> run es s = Some s' -> P s'.
Proof.
  intros Hstep. induction es as [|e es IH]; intros s s' HP; cbn [run].
  - now intros [= <-].
  - destruct (step e s) as [s1|] eqn:E; [|discriminate]. eauto.
Qed.

(** A pass of the frame loop: it needs a live generator, leaves the
    worker's variables alone, and adds what the frame calls for. *)
Lemma generate_frames_step_cases (rd : cap_read) (s s' : system) :
  generate_frames_step rd s = Some s' ->
  generator s = Streaming /\
  last_time s' = last_time s /\ worker s' = worker s /\
  match rd with
  | ReadFailed => s' = set_generator Ended s
  | ReadOk c =>
      if existsb violating (detections c)
      then exists q',
          play_alert (audio_queue s) = Returned q' /\
          s' = mkSystem q' (last_time s) (worker s)
                 (match imwrite_does c with
                  | ImwriteRaised => GeneratorDied "cv2.error"
                  | _ => Streaming
                  end)
                 (match imwrite_does c with
                  | ImwriteTrue =>
                      <[snapshot_filename (strftime (wall_clock c)) := File (annotate c)]> (fs s)
                  | _ => fs s
                  end)
                 (history s ++
                  [PlayAlert (PyQueue.empty (audio_queue s));
                   Imwrite (snapshot_filename (strftime (wall_clock c))) (annotate c)
                           (imwrite_does c)] ++
                  match imwrite_does c with
                  | ImwriteRaised => []
                  | _ => [Yield (annotate c)]
                  end)
      else s' = emit [Yield (annotate c)] s
  end.
Proof.
  intros H.
  assert (generator s = Streaming) as Hg.
  { unfold generate_frames_step in H. now destruct (generator s). }
  split; [exact Hg|]. destruct rd as [|c].
  - unfold generate_frames_step in H. rewrite Hg in H. injection H as <-. now repeat split.
  - destruct (existsb violating (detections c)) eqn:Hv.
    + destruct (generate_frames_step_violation s c Hg Hv) as (q' & Hq & E).
      rewrite E in H. injection H as <-. repeat split. now exists q'.
    + rewrite (generate_frames_step_clear s c Hg Hv) in H. injection H as <-.
      now repeat split.
Qed.

(** The worker leaving [get()] in a state the program can be in. *)
Lemma worker_get_cases (now : Q) (s s' : system) :
  invariant s -> worker_get now s = Some s' ->
  worker s = AtGet /\
  (exists x, items (audio_queue s) = [x]) /\
  items (audio_queue s') = [] /\
  fs s' = fs s /\ generator s' = generator s /\ last_time s' = last_time s /\
  (if cooldown_elapsed (last_time s) now
   then worker s' = InPlaysound now /\ history s' = history s ++ [Playsound ALERT_SOUND now]
   else worker s' = AtGet /\ history s' = history s).
Proof.
  destruct s as [[mx its un] lt wk g m h].
  intros [Hm Hl Hu Ha Hb Hw Hp]. unfold worker_get, in_flight in *.
  cbn [worker audio_queue last_time history maxsize items unfinished_tasks fs generator] in *.
  destruct wk; try discriminate.
  unfold PyQueue.get. cbn [items maxsize unfinished_tasks].
  destruct its as [|x [|y rest]]; [discriminate| |cbn in Hl; lia].
  destruct (cooldown_elapsed lt now).
  - intros [= <-]. cbn. repeat split. now exists x.
  - unfold PyQueue.task_done. cbn [unfinished_tasks maxsize items].
    destruct un as [|n]; [cbn in Hu; lia|].
    intros [= <-]. cbn. repeat split. now exists x.
Qed.

(** The worker leaving [playsound] in a state the program can be in. *)
Lemma playsound_returns_cases (r : playsound_result) (s s' : system) :
  invariant s -> playsound_returns r s = Some s' ->
  exists now,
    worker s = InPlaysound now /\ worker s' = AtGet /\ last_time s' = now /\
    items (audio_queue s') = items (audio_queue s) /\
    fs s' = fs s /\ generator s' = generator s /\
    history s' =
      history s ++
      PlaysoundDone r :: match r with PlayOk => [] | PlayRaised e => [PrintAudioError e] end.
Proof.
  destruct s as [[mx its un] lt wk g m h].
  intros [Hm Hl Hu Ha Hb Hw Hp]. unfold playsound_returns, in_flight in *.
  cbn [worker audio_queue last_time history maxsize items unfinished_tasks fs generator] in *.
  destruct wk as [|now|]; try discriminate.
  unfold PyQueue.task_done.
  cbn [set_last_time emit audio_queue unfinished_tasks maxsize items].
  destruct un as [|n]; [lia|].
  intros [= <-]. exists now. cbn. repeat split.
Qed.

(** ** The debounce rule, on the whole worker *)

Lemma audio_worker_snoc (pre : list (Q * playsound_result)) (now : Q) (r : playsound_result) :
  _audio_worker (pre ++ [(now, r)]) =
  (fst (audio_iteration (fst (_audio_worker pre)) now r),
   snd (_audio_worker pre) ++ snd (audio_iteration (fst (_audio_worker pre)) now r)).
Proof.
  unfold _audio_worker. rewrite audio_loop_app, audio_loop_cons. cbn [audio_loop fst snd].
  now rewrite app_nil_r.
Qed.

Lemma suppressed_after (t0 d : Q) (r : playsound_result) :
  (0 <= d)%Q -> (d < ALERT_COOLDOWN)%Q -> audio_iteration t0 (t0 + d) r = (t0, []).
Proof.
  intros H0 H5. unfold audio_iteration.
  assert (cooldown_elapsed t0 (t0 + d) = false) as ->; [|reflexivity].
  apply cooldown_elapsed_false. lra.
Qed.

(** C2. The worker starts from [last_time = 0] with nothing done.  Each
    request of any sequence, taken at clock reading [now] when the requests
    before it have left [last_time], is played exactly when
    [now - last_time >= ALERT_COOLDOWN]; played, it leaves [last_time = now],
    and otherwise it changes nothing: this for a single pass, for the loop
    [_audio_worker] after any requests, and for the worker thread of the
    running program in every state it reaches with a request in the slot.
    With the cooldown of 5: from [last_time = 0], which is what a playback
    at clock 0 leaves and what the worker starts from, requests at 1, 2, 3
    and 4 do nothing and a request at any clock reading from 5 on is
    played; and after a playback at any clock reading [t0], requests at
    [t0 + 1] to [t0 + 4] do nothing and a request at any clock reading from
    [t0 + 5] on is played. *)
Theorem debounce_rule :
  _audio_worker [] = (0%Q, []) /\
  (forall (disk : gmap string node) (s0 : system),
     startup disk = Returned s0 -> last_time s0 = 0%Q) /\
  (forall (last now : Q) (r : playsound_result),
     (fired (audio_iteration last now r) = true <-> (now - last >= ALERT_COOLDOWN)%Q) /\
     (fired (audio_iteration last now r) = true ->
      audio_iteration last now r = (now, try_playsound now r)) /\
     (fired (audio_iteration last now r) = false ->
      audio_iteration last now r = (last, []))) /\
  (forall (pre : list (Q * playsound_result)) (now : Q) (r : playsound_result),
     ((now - fst (_audio_worker pre) >= ALERT_COOLDOWN)%Q ->
      _audio_worker (pre ++ [(now, r)]) =
        (now, snd (_audio_worker pre) ++ try_playsound now r)) /\
     ((now - fst (_audio_worker pre) < ALERT_COOLDOWN)%Q ->
      _audio_worker (pre ++ [(now, r)]) = _audio_worker pre)) /\
  (forall (s : system) (now : Q),
     reachable s -> worker s = AtGet -> items (audio_queue s) <> [] ->
     ((now - last_time s >= ALERT_COOLDOWN)%Q ->
      exists s1,
        worker_get now s = Some s1 /\ worker s1 = InPlaysound now /\
        history s1 = history s ++ [Playsound ALERT_SOUND now] /\
        forall r : playsound_result,
          exists s2, playsound_returns r s1 = Some s2 /\
                     last_time s2 = now /\ worker s2 = AtGet) /\
     ((now - last_time s < ALERT_COOLDOWN)%Q ->
      exists s1,
        worker_get now s = Some s1 /\ worker s1 = AtGet /\
        last_time s1 = last_time s /\ history s1 = history s)) /\
  ALERT_COOLDOWN = 5%Q /\
  (forall r1 r2 r3 r4 : playsound_result,
     _audio_worker [(1%Q, r1); (2%Q, r2); (3%Q, r3); (4%Q, r4)] = (0%Q, []) /\
     forall (t : Q) (r : playsound_result),
       (5 <= t)%Q ->
       _audio_worker [(1%Q, r1); (2%Q, r2); (3%Q, r3); (4%Q, r4); (t, r)] =
         (t, try_playsound t r)) /\
  (forall (pre : list (Q * playsound_result)) (t0 : Q) (r0 r1 r2 r3 r4 : playsound_result),
     (t0 - fst (_audio_worker pre) >= ALERT_COOLDOWN)%Q ->
     _audio_worker (pre ++ [(t0, r0); ((t0 + 1)%Q, r1); ((t0 + 2)%Q, r2);
                            ((t0 + 3)%Q, r3); ((t0 + 4)%Q, r4)]) =
       (t0, snd (_audio_worker pre) ++ try_playsound t0 r0) /\
     forall (t : Q) (r : playsound_result),
       (t0 + 5 <= t)%Q ->
       _audio_worker (pre ++ [(t0, r0); ((t0 + 1)%Q, r1); ((t0 + 2)%Q, r2);
                              ((t0 + 3)%Q, r3); ((t0 + 4)%Q, r4); (t, r)]) =
         (t, snd (_audio_worker pre) ++ try_playsound t0 r0 ++ try_playsound t r)).
Proof.
  assert (forall last now r,
             (now - last >= ALERT_COOLDOWN)%Q ->
             audio_iteration last now r = (now, try_playsound now r)) as Hyes.
  { intros last now r H. apply cooldown_elapsed_true in H.
    unfold audio_iteration. now rewrite H. }
  assert (forall last now r,
             (now - last < ALERT_COOLDOWN)%Q -> audio_iteration last now r = (last, [])) as Hno.
  { intros last now r H. apply cooldown_elapsed_false in H.
    unfold audio_iteration. now rewrite H. }
  split; [reflexivity|].
  split.
  { intros disk s0 H. unfold startup in H.
    destruct (makedirs_exist_ok SNAPSHOT_DIR disk); try discriminate.
    now injection H as <-. }
  split.
  { intros last now r. rewrite fired_cooldown. split; [apply cooldown_elapsed_true|].
    unfold audio_iteration. split; now intros ->. }
  split.
  { intros pre now r. rewrite audio_worker_snoc. split; intros H.
    - now rewrite (Hyes _ _ r H).
    - rewrite (Hno _ _ r H). cbn [fst snd]. rewrite app_nil_r.
      now destruct (_audio_worker pre). }
  split.
  { intros s now Hs Hw Hne. pose proof (reachable_invariant s Hs) as Hinv.
    destruct s as [[mx its un] lt wk g m h].
    destruct Hinv as [Hm Hl Hu Ha Hb Hwin Hp]. unfold in_flight in *.
    cbn [worker audio_queue last_time history maxsize items unfinished_tasks] in *.
    subst wk. destruct its as [|x [|y rest]]; [congruence| |cbn in Hl; lia].
    destruct un as [|n]; [cbn in Hu; lia|].
    unfold worker_get, PyQueue.get, PyQueue.task_done. cbn. split; intros H.
    - apply cooldown_elapsed_true in H. rewrite H. eexists. split; [reflexivity|].
      cbn. split; [reflexivity|]. split; [reflexivity|].
      intros r. unfold playsound_returns, PyQueue.task_done. cbn.
      eexists. split; [reflexivity|]. cbn. now split.
    - apply cooldown_elapsed_false in H. rewrite H. eexists. split; [reflexivity|].
      cbn. now repeat split. }
  split; [reflexivity|].
  split.
  { intros r1 r2 r3 r4. split; [reflexivity|]. intros t r Ht.
    change [(1%Q, r1); (2%Q, r2); (3%Q, r3); (4%Q, r4); (t, r)]
      with ([(1%Q, r1); (2%Q, r2); (3%Q, r3); (4%Q, r4)] ++ [(t, r)]).
    rewrite audio_worker_snoc.
    change (_audio_worker [(1%Q, r1); (2%Q, r2); (3%Q, r3); (4%Q, r4)]) with (0%Q, @nil effect).
    cbn [fst snd app]. rewrite Hyes; [reflexivity|]. unfold ALERT_COOLDOWN. lra. }
  intros pre t0 r0 r1 r2 r3 r4 H0.
  assert (_audio_worker (pre ++ [(t0, r0); ((t0 + 1)%Q, r1); ((t0 + 2)%Q, r2);
                                 ((t0 + 3)%Q, r3); ((t0 + 4)%Q, r4)]) =
          (t0, snd (_audio_worker pre) ++ try_playsound t0 r0)) as Hquiet.
  { unfold _audio_worker. rewrite audio_loop_app. rewrite !audio_loop_cons.
    fold (_audio_worker pre). rewrite (Hyes _ _ r0 H0). cbn [fst snd audio_loop].
    rewrite !suppressed_after by (unfold ALERT_COOLDOWN; lra).
    cbn [fst snd app]. now rewrite !app_nil_r. }
  split; [exact Hquiet|].
  intros t r Ht.
  change [(t0, r0); ((t0 + 1)%Q, r1); ((t0 + 2)%Q, r2); ((t0 + 3)%Q, r3); ((t0 + 4)%Q, r4); (t, r)]
    with ([(t0, r0); ((t0 + 1)%Q, r1); ((t0 + 2)%Q, r2); ((t0 + 3)%Q, r3); ((t0 + 4)%Q, r4)]
          ++ [(t, r)]).
  rewrite app_assoc, audio_worker_snoc, Hquiet. cbn [fst snd].
  rewrite Hyes; [|unfold ALERT_COOLDOWN; lra]. cbn [fst snd]. now rewrite <- app_assoc.
Qed.

Lemma debounce_rule_witness :
  (_audio_worker ([] ++ [(10%Q, PlayOk); ((10 + 1)%Q, PlayOk); ((10 + 2)%Q, PlayOk);
                         ((10 + 3)%Q, PlayOk); ((10 + 4)%Q, PlayOk)]) =
     (10%Q, snd (_audio_worker []) ++ try_playsound 10 PlayOk) /\
   _audio_worker ([] ++ [(10%Q, PlayOk); ((10 + 1)%Q, PlayOk); ((10 + 2)%Q, PlayOk);
                         ((10 + 3)%Q, PlayOk); ((10 + 4)%Q, PlayOk); (15%Q, PlayOk)]) =
     (15%Q, snd (_audio_worker []) ++ try_playsound 10 PlayOk ++ try_playsound 15 PlayOk)) /\
  match run [CapRead (ReadOk (violation_capture ImwriteTrue))] fresh_system with
  | Some s =>
      exists s1,
        worker_get 10 s = Some s1 /\ worker s1 = InPlaysound 10 /\
        history s1 = history s ++ [Playsound ALERT_SOUND 10] /\
        forall r : playsound_result,
          exists s2, playsound_returns r s1 = Some s2 /\
                     last_time s2 = 10%Q /\ worker s2 = AtGet
  | None => False
  end.
Proof.
  destruct debounce_rule as (_ & _ & _ & _ & Hsys & _ & _ & Hshift).
  split.
  - destruct (Hshift [] 10%Q PlayOk PlayOk PlayOk PlayOk PlayOk) as [H1 H2];
      [discriminate|]. split; [exact H1 | apply H2; discriminate].
  - destruct (run [CapRead (ReadOk (violation_capture ImwriteTrue))] fresh_system)
      as [s|] eqn:E; [|discriminate E].
    assert (reachable s) as Hs.
    { exists ∅, fresh_system, [CapRead (ReadOk (violation_capture ImwriteTrue))].
      split; [reflexivity | exact E]. }
    injection E as E.
    destruct (Hsys s 10%Q Hs) as [H _].
    + now rewrite <- E.
    + rewrite <- E. discriminate.
    + apply H. rewrite <- E. discriminate.
Defined.

(** ** The worker thread in the running program *)

(** X5. The worker thread never dies and is never stuck for a reason of its
    own: in every state the program reaches it is in [get()] or in
    [playsound]; from [playsound] it gets back to [get()] whether the
    playback worked or raised ([task_done] finds its unfinished task); in
    [get()] it takes the request as soon as there is one, which empties the
    slot, and it waits when there is none. *)
Theorem worker_never_stuck (s : system) :
  reachable s ->
  (forall exc : string, worker s <> WorkerDied exc) /\
  (forall (now : Q) (r : playsound_result),
     worker s = InPlaysound now ->
     exists s', playsound_returns r s = Some s' /\ worker s' = AtGet /\ last_time s' = now) /\
  (forall now : Q,
     worker s = AtGet -> items (audio_queue s) <> [] ->
     exists s', worker_get now s = Some s' /\ items (audio_queue s') = [] /\
                (worker s' = AtGet \/ worker s' = InPlaysound now)) /\
  (forall now : Q, items (audio_queue s) = [] -> worker_get now s = None).
Proof.
  intros Hs. apply reachable_invariant in Hs.
  destruct s as [[mx its un] lt wk g m h].
  destruct Hs as [Hm Hl Hu Ha Hb Hw Hp]. unfold in_flight, worker_alive in *.
  cbn [worker audio_queue last_time history maxsize items unfinished_tasks] in *.
  split; [|split; [|split]].
  - intros exc ->. exact Ha.
  - intros now r ->. unfold playsound_returns, PyQueue.task_done. cbn.
    destruct un as [|n]; [lia|]. eexists. repeat split.
  - intros now -> Hne. unfold worker_get, PyQueue.get, PyQueue.task_done. cbn.
    destruct its as [|x [|y rest]]; [congruence| |cbn in Hl; lia].
    destruct (cooldown_elapsed lt now).
    + eexists. split; [reflexivity|]. cbn. auto.
    + destruct un as [|n]; [cbn in Hu; lia|]. eexists. split; [reflexivity|]. cbn. auto.
  - intros now ->. unfold worker_get, PyQueue.get. cbn. now destruct wk.
Qed.

Lemma worker_never_stuck_witness :
  match run during_playback fresh_system with
  | Some s =>
      exists s', playsound_returns (PlayRaised "no audio device") s = Some s' /\
                 worker s' = AtGet /\ last_time s' = 10%Q
  | None => False
  end.
Proof.
  destruct (run during_playback fresh_system) as [s|] eqn:E; [|discriminate E].
  assert (reachable s) as Hs.
  { exists ∅, fresh_system, during_playback. split; [reflexivity | exact E]. }
  destruct (worker_never_stuck s Hs) as (_ & H & _).
  apply H. injection E as <-. reflexivity.
Defined.

Lemma filter_audio_frame (rd : cap_read) (s s' : system) :
  generate_frames_step rd s = Some s' ->
  List.filter is_audio (history s') = List.filter is_audio (history s).
Proof.
  intros H. destruct (generate_frames_step_cases rd s s' H) as (Hg & _ & _ & Hc).
  destruct rd as [|c].
  - now subst s'.
  - destruct (existsb violating (detections c)).
    + destruct Hc as (q' & _ & ->). cbn [history]. rewrite !List.filter_app.
      destruct (imwrite_does c); cbn; now rewrite app_nil_r.
    + subst s'. cbn [history emit]. rewrite List.filter_app. cbn. now rewrite app_nil_r.
Qed.

Lemma run_snoc (es : list event) (e : event) (s0 s' : system) :
  run (es ++ [e]) s0 = Some s' ->
  exists s, run es s0 = Some s /\ step e s = Some s'.
Proof.
  rewrite run_app. destruct (run es s0) as [s|]; [|discriminate].
  cbn [run]. destruct (step e s) as [s1|] eqn:E; [|discriminate].
  intros [= <-]. now exists s.
Qed.

Lemma get_clocks_taken (unplayed : playsound_result) (es : list event) :
  map fst (requests_taken unplayed es) = get_clocks es.
Proof.
  unfold requests_taken, get_clocks.
  induction es as [|e es IH] using rev_ind; [reflexivity|].
  rewrite fold_left_app, flat_map_app. cbn [fold_left flat_map].
  destruct (fold_left (note_event unplayed) es ([], None)) as [done pend].
  rewrite <- IH. cbn [fst snd].
  destruct e as [rd|now|r]; cbn [note_event fst snd].
  - cbn. now rewrite ?app_nil_r.
  - rewrite !map_app. cbn. now rewrite ?app_nil_r.
  - destruct pend as [p|]; cbn [fst snd]; rewrite ?map_app; cbn; now rewrite ?app_nil_r.
Qed.

(** The state of the worker against the schedule followed so far. *)
Lemma worker_follows_schedule (unplayed : playsound_result) (es : list event) :
  forall (disk : gmap string node) (s0 s : system),
    startup disk = Returned s0 -> run es s0 = Some s ->
    last_time s = fst (audio_loop 0 (fst (fold_left (note_event unplayed) es ([], None)))) /\
    match snd (fold_left (note_event unplayed) es ([], None)) with
    | None =>
        worker s = AtGet /\
        List.filter is_audio (history s) =
          snd (audio_loop 0 (fst (fold_left (note_event unplayed) es ([], None))))
    | Some p =>
        worker s = (if cooldown_elapsed (last_time s) p then InPlaysound p else AtGet) /\
        List.filter is_audio (history s) =
          snd (audio_loop 0 (fst (fold_left (note_event unplayed) es ([], None)))) ++
          (if cooldown_elapsed (last_time s) p then [Playsound ALERT_SOUND p] else [])
    end.
Proof.
  induction es as [|e es IH] using rev_ind; intros disk s0 s' Hs0 Hrun.
  - cbn in Hrun. injection Hrun as <-.
    unfold startup in Hs0. destruct (makedirs_exist_ok SNAPSHOT_DIR disk); try discriminate.
    injection Hs0 as <-. cbn. auto.
  - destruct (run_snoc es e s0 s' Hrun) as (s & Hes & Hstep).
    assert (invariant s) as Hinv.
    { eapply run_invariant; [|exact Hes]. eapply startup_invariant, Hs0. }
    destruct (IH disk s0 s Hs0 Hes) as [Hl Hp]. clear IH.
    rewrite fold_left_app. cbn [fold_left].
    destruct (fold_left (note_event unplayed) es ([], None)) as [done pend].
    cbn [fst snd] in *.
    destruct e as [rd|now|r]; cbn [step] in Hstep; cbn [note_event fst snd].
    + pose proof (filter_audio_frame rd s s' Hstep) as Hf.
      destruct (generate_frames_step_cases rd s s' Hstep) as (_ & Hl' & Hw' & _).
      rewrite Hf, Hl', Hw'. auto.
    + destruct (worker_get_cases now s s' Hinv Hstep)
        as (Hat & _ & _ & _ & _ & Hl' & Hc).
      assert (last_time s = fst (audio_loop 0 (done ++ match pend with
                                                       | Some p => [(p, unplayed)]
                                                       | None => []
                                                       end)) /\
              List.filter is_audio (history s) =
              snd (audio_loop 0 (done ++ match pend with
                                         | Some p => [(p, unplayed)]
                                         | None => []
                                         end))) as [Hl2 Hh2].
      { destruct pend as [p|].
        - destruct Hp as [Hw Hh]. rewrite Hat in Hw.
          destruct (cooldown_elapsed (last_time s) p) eqn:E; [discriminate Hw|].
          rewrite audio_loop_app. cbn [audio_loop fst snd]. unfold audio_iteration.
          rewrite <- Hl, E. cbn [fst snd]. rewrite Hh, !app_nil_r. auto.
        - destruct Hp as [_ Hh]. now rewrite app_nil_r. }
      rewrite Hl', <- Hl2. split; [reflexivity|].
      destruct (cooldown_elapsed (last_time s) now); destruct Hc as [-> ->].
      * split; [reflexivity|]. rewrite List.filter_app, Hh2. reflexivity.
      * split; [reflexivity|]. now rewrite Hh2, app_nil_r.
    + destruct (playsound_returns_cases r s s' Hinv Hstep)
        as (now & Hin & Hw' & Hl' & _ & _ & _ & Hh').
      destruct pend as [p|]; [|destruct Hp as [Hw _]; congruence].
      destruct Hp as [Hw Hh]. rewrite Hin in Hw.
      destruct (cooldown_elapsed (last_time s) p) eqn:E; [|discriminate Hw].
      injection Hw as <-. cbn [fst snd].
      rewrite audio_loop_app. cbn [audio_loop fst snd]. unfold audio_iteration.
      rewrite <- Hl, E. cbn [fst snd].
      rewrite Hl', Hw', Hh', List.filter_app, Hh, !app_nil_r, <- app_assoc.
      split; [reflexivity|]. split; [reflexivity|]. destruct r; reflexivity.
Qed.

(** X6. The worker thread of the running program, with the frame loop
    running beside it, does what the loop [_audio_worker] does on the
    requests it took in the schedule: one request for each [WorkerGet], in
    order, at the clock reading of that step and with the outcome of the
    playback that followed.  The audio effects so far, with the end of the
    playback that is running added when there is one, are the effects of
    [_audio_worker] on those requests, and the clock reading of the latest
    playback is the [last_time] it ends with; this whatever outcome is
    entered for the requests that were not played and for the playback
    that has not returned. *)
Theorem worker_thread_runs_loop
    (disk : gmap string node) (s0 s : system) (es : list event) (unplayed : playsound_result) :
  startup disk = Returned s0 -> run es s0 = Some s ->
  map fst (requests_taken unplayed es) = get_clocks es /\
  top_time s = fst (_audio_worker (requests_taken unplayed es)) /\
  List.filter is_audio (history s) ++
    match worker s with
    | InPlaysound _ => playsound_end unplayed
    | _ => []
    end =
  snd (_audio_worker (requests_taken unplayed es)).
Proof.
  intros Hs0 Hrun. split; [apply get_clocks_taken|].
  destruct (worker_follows_schedule unplayed es disk s0 s Hs0 Hrun) as [Hl Hp].
  unfold requests_taken, _audio_worker, top_time.
  destruct (fold_left (note_event unplayed) es ([], None)) as [done pend].
  cbn [fst snd] in *. destruct pend as [p|].
  - destruct Hp as [Hw Hh]. rewrite audio_loop_app. cbn [audio_loop fst snd].
    unfold audio_iteration. rewrite <- Hl.
    destruct (cooldown_elapsed (last_time s) p); rewrite Hw, Hh; cbn [fst snd].
    + rewrite !app_nil_r, <- app_assoc. split; [reflexivity|].
      unfold playsound_end. destruct unplayed; reflexivity.
    + now rewrite !app_nil_r.
  - destruct Hp as [Hw Hh]. now rewrite Hw, Hh, !app_nil_r.
Qed.

Lemma worker_thread_runs_loop_witness :
  match run (during_playback ++ [PlaysoundReturns (PlayRaised "x"); WorkerGet 12]) fresh_system with
  | Some s =>
      requests_taken PlayOk (during_playback ++ [PlaysoundReturns (PlayRaised "x"); WorkerGet 12])
        = [(10%Q, PlayRaised "x"); (12%Q, PlayOk)] /\
      top_time s =
        fst (_audio_worker
               (requests_taken PlayOk
                  (during_playback ++ [PlaysoundReturns (PlayRaised "x"); WorkerGet 12]))) /\
      List.filter is_audio (history s) ++
        match worker s with
        | InPlaysound _ => playsound_end PlayOk
        | _ => []
        end =
      snd (_audio_worker
             (requests_taken PlayOk
                (during_playback ++ [PlaysoundReturns (PlayRaised "x"); WorkerGet 12])))
  | None => False
  end.
Proof.
  destruct (run (during_playback ++ [PlaysoundReturns (PlayRaised "x"); WorkerGet 12])
                fresh_system) as [s|] eqn:E; [|discriminate E].
  assert (startup ∅ = Returned fresh_system) as Hs0 by reflexivity.
  destruct (worker_thread_runs_loop ∅ fresh_system s
              (during_playback ++ [PlaysoundReturns (PlayRaised "x"); WorkerGet 12])
              PlayOk Hs0 E) as (_ & H2 & H3).
  split; [reflexivity|]. split; [exact H2 | exact H3].
Defined.

(** ** The frame loop in the running program *)

Lemma filter_video_quiet_audio (h : list effect) (es : list effect) :
  Forall (fun e => is_video e = false) es ->
  List.filter is_video (h ++ es) = List.filter is_video h.
Proof.
  intros H. rewrite List.filter_app.
  assert (List.filter is_video es = []) as ->; [|apply app_nil_r].
  induction H as [|e es He _ IH]; [reflexivity|]. cbn [List.filter]. now rewrite He.
Qed.

(** The worker's steps leave the generator, the disk and what the frame
    loop has shown and stored as they were, in any state. *)
Lemma worker_step_video (e : event) (s s' : system) :
  is_cap_read e = false -> step e s = Some s' ->
  generator s' = generator s /\ fs s' = fs s /\
  List.filter is_video (history s') = List.filter is_video (history s).
Proof.
  destruct s as [[mx its un] lt wk g m h].
  destruct e as [rd|now|r]; [discriminate| |]; intros _; cbn [step].
  - unfold worker_get, PyQueue.get, PyQueue.task_done. cbn.
    destruct wk; try discriminate. destruct its as [|x rest]; [discriminate|].
    destruct (cooldown_elapsed lt now).
    + intros [= <-]. cbn. repeat split.
      apply filter_video_quiet_audio. repeat constructor.
    + destruct un; intros [= <-]; cbn; repeat split.
  - unfold playsound_returns, PyQueue.task_done. cbn.
    destruct wk as [|now|]; try discriminate.
    destruct un; intros [= <-]; cbn; repeat split;
      apply filter_video_quiet_audio; destruct r; repeat constructor.
Qed.

(** X7. With one frame generator running, what the stream shows and what
    is stored do not depend on the audio side.  Take two states that agree
    on the generator, the disk and the frames and snapshots so far, and
    differ as they like on the queue, the worker and [last_time].  Whatever
    schedule runs from the first, the reads of that schedule alone run from
    the second, and the two end with the same generator state, the same
    disk and the same frames and snapshot attempts: no playback, failure of
    [playsound] or dropped request changes the video. *)
Theorem audio_never_affects_video (es : list event) :
  forall s1 s2 s1' : system,
    generator s1 = generator s2 -> fs s1 = fs s2 ->
    List.filter is_video (history s1) = List.filter is_video (history s2) ->
    run es s1 = Some s1' ->
    exists s2',
      run (List.filter is_cap_read es) s2 = Some s2' /\
      generator s1' = generator s2' /\ fs s1' = fs s2' /\
      List.filter is_video (history s1') = List.filter is_video (history s2').
Proof.
  induction es as [|e es IH]; intros s1 s2 s1' Hg Hf Hh; cbn [run List.filter].
  - intros [= <-]. now exists s2.
  - destruct (step e s1) as [t1|] eqn:E; [|discriminate]. intros Hrun.
    destruct (is_cap_read e) eqn:Hc.
    + destruct e as [rd| |]; try discriminate Hc. cbn [step] in E. cbn [run step].
      destruct (generate_frames_step_cases rd s1 t1 E) as (Hg1 & _ & _ & Hcase).
      assert (generator s2 = Streaming) as Hg2 by congruence.
      assert (exists t2, generate_frames_step rd s2 = Some t2 /\
                         generator t1 = generator t2 /\ fs t1 = fs t2 /\
                         List.filter is_video (history t1) =
                         List.filter is_video (history t2)) as (t2 & E2 & Hg' & Hf' & Hh').
      { destruct rd as [|c].
        - subst t1. unfold generate_frames_step. rewrite Hg2. eexists. now repeat split.
        - destruct (existsb violating (detections c)) eqn:Hv.
          + destruct Hcase as (q1 & _ & ->).
            destruct (generate_frames_step_violation s2 c Hg2 Hv) as (q2 & _ & ->).
            eexists. split; [reflexivity|]. cbn [generator fs history].
            split; [reflexivity|]. split; [now rewrite Hf|].
            rewrite !List.filter_app, Hh. reflexivity.
          + subst t1. rewrite (generate_frames_step_clear s2 c Hg2 Hv).
            eexists. split; [reflexivity|]. cbn [generator fs history emit].
            repeat split; auto. now rewrite !List.filter_app, Hh. }
      rewrite E2. exact (IH t1 t2 s1' Hg' Hf' Hh' Hrun).
    + destruct (worker_step_video e s1 t1 Hc E) as (Hg' & Hf' & Hh').
      apply (IH t1 s2 s1'); congruence.
Qed.

Lemma audio_never_affects_video_witness :
  exists s2',
    run (List.filter is_cap_read (during_playback ++ [PlaysoundReturns (PlayRaised "x")]))
        (mkSystem (mkQueue 1 [1%Z] 1) 99 AtGet Streaming {[SNAPSHOT_DIR := Dir]} []) = Some s2' /\
    option_map generator (run (during_playback ++ [PlaysoundReturns (PlayRaised "x")]) fresh_system)
      = Some (generator s2') /\
    option_map fs (run (during_playback ++ [PlaysoundReturns (PlayRaised "x")]) fresh_system)
      = Some (fs s2') /\
    option_map (fun s => List.filter is_video (history s))
               (run (during_playback ++ [PlaysoundReturns (PlayRaised "x")]) fresh_system)
      = Some (List.filter is_video (history s2')).
Proof.
  destruct (run (during_playback ++ [PlaysoundReturns (PlayRaised "x")]) fresh_system)
    as [s1'|] eqn:E; [|discriminate E].
  destruct (audio_never_affects_video
              (during_playback ++ [PlaysoundReturns (PlayRaised "x")])
              fresh_system
              (mkSystem (mkQueue 1 [1%Z] 1) 99 AtGet Streaming {[SNAPSHOT_DIR := Dir]} [])
              s1' eq_refl eq_refl eq_refl E) as (s2' & H1 & H2 & H3 & H4).
  exists s2'. split; [exact H1|]. cbn [option_map]. now rewrite H2, H3, H4.
Defined.

(** ** Requests, playbacks and snapshots counted *)

Lemma empty_items (q : Queue) :
  PyQueue.empty q = match items q with [] => true | _ :: _ => false end.
Proof. reflexivity. Qed.

(** X8. In every state the program reaches: a playback has started only for a
    request that [play_alert] put in the slot (the playbacks so far plus
    the request waiting in the slot are no more than the requests
    accepted), a request is accepted only when [play_alert] is called, and
    [play_alert] is called exactly as often as [cv2.imwrite]. *)
Theorem alerts_accounted (s : system) :
  reachable s ->
  (length (List.filter is_playsound (history s)) + length (items (audio_queue s))
   <= length (List.filter is_accepted (history s)))%nat /\
  (length (List.filter is_accepted (history s))
   <= length (List.filter is_play_alert (history s)))%nat /\
  length (List.filter is_play_alert (history s)) =
  length (List.filter is_imwrite (history s)).
Proof.
  intros (disk & s0 & es & Hs0 & Hrun).
  pose proof (startup_invariant disk s0 Hs0) as Hinv0.
  set (P := fun s : system =>
              invariant s /\
              (length (List.filter is_playsound (history s)) + length (items (audio_queue s))
               <= length (List.filter is_accepted (history s)))%nat /\
              length (List.filter is_play_alert (history s)) =
              length (List.filter is_imwrite (history s))).
  assert (P s) as (_ & H1 & H2).
  { apply (run_preserves P) with (es := es) (s := s0); [|clear Hrun|exact Hrun].
    - clear. intros e s s' (Hinv & H1 & H2) Hstep.
      split; [eapply step_invariant; eassumption|].
      destruct e as [rd|now|r]; cbn [step] in Hstep.
      + destruct (generate_frames_step_cases rd s s' Hstep) as (_ & _ & _ & Hc).
        destruct rd as [|c]; [now subst s'|].
        destruct (existsb violating (detections c)).
        * destruct Hc as (q' & Hq & ->). cbn [history audio_queue].
          destruct (play_alert_returns (audio_queue s)) as (q2 & Hq2 & Hdrop & Hput).
          rewrite Hq in Hq2. injection Hq2 as <-.
          rewrite !List.filter_app, !length_app, empty_items.
          destruct (items (audio_queue s)) as [|x rest] eqn:Ei.
          -- destruct (Hput eq_refl) as [-> _].
             destruct (imwrite_does c); cbn; cbn in H1; lia.
          -- rewrite Hdrop by discriminate. rewrite Ei.
             destruct (imwrite_does c); cbn; cbn in H1; lia.
        * subst s'. cbn [history emit audio_queue].
          rewrite !List.filter_app, !length_app. cbn. lia.
      + destruct (worker_get_cases now s s' Hinv Hstep)
          as (_ & (x & Hx) & Hi & _ & _ & _ & Hc).
        rewrite Hx in H1. rewrite Hi.
        destruct (cooldown_elapsed (last_time s) now); destruct Hc as [_ ->].
        * rewrite !List.filter_app, !length_app. cbn. cbn in H1. lia.
        * cbn in *. lia.
      + destruct (playsound_returns_cases r s s' Hinv Hstep)
          as (now & _ & _ & _ & -> & _ & _ & ->).
        rewrite !List.filter_app, !length_app. destruct r; cbn; lia.
    - split; [exact Hinv0|].
      unfold startup in Hs0. destruct (makedirs_exist_ok SNAPSHOT_DIR disk); try discriminate.
      injection Hs0 as <-. cbn. lia. }
  split; [exact H1|]. split; [|exact H2].
  apply filter_length_impl. now intros [[]| | | | |].
Qed.

Lemma alerts_accounted_witness :
  match run during_playback fresh_system with
  | Some s =>
      (length (List.filter is_playsound (history s)) + length (items (audio_queue s))
       <= length (List.filter is_accepted (history s)))%nat /\
      (length (List.filter is_accepted (history s))
       <= length (List.filter is_play_alert (history s)))%nat /\
      length (List.filter is_play_alert (history s)) =
      length (List.filter is_imwrite (history s))
  | None => False
  end.
Proof.
  destruct (run during_playback fresh_system) as [s|] eqn:E; [|discriminate E].
  apply alerts_accounted.
  exists ∅, fresh_system, during_playback. split; [reflexivity | exact E].
Defined.

(** ** The disk *)

Lemma snapshot_filename_prefix (ts : string) :
  String.prefix "snapshots/no_helmet_" (snapshot_filename ts) = true.
Proof. apply prefix_append. now exists (ts ++ ".jpg")%string. Qed.

Lemma step_fs (e : event) (s s' : system) :
  step e s = Some s' ->
  fs s' = fs s \/
  exists c : capture,
    fs s' = <[snapshot_filename (strftime (wall_clock c)) := File (annotate c)]> (fs s).
Proof.
  intros H. destruct (is_cap_read e) eqn:Hc.
  - destruct e as [rd| |]; try discriminate Hc. cbn [step] in H.
    destruct (generate_frames_step_cases rd s s' H) as (_ & _ & _ & Hcase).
    destruct rd as [|c]; [subst s'; now left|].
    destruct (existsb violating (detections c)).
    + destruct Hcase as (q' & _ & ->). cbn [fs].
      destruct (imwrite_does c); [right; now exists c | now left | now left].
    + subst s'. now left.
  - left. now destruct (worker_step_video e s s' Hc H) as (_ & -> & _).
Qed.

(** X9. Nothing on the disk is ever removed or changed, except that a path
    [snapshots/no_helmet_...], 39 characters long, may come to hold a
    snapshot (a new one, or one that replaces an older snapshot); in
    particular [SNAPSHOT_DIR] stays the directory start-up made, and the
    program can be started again on the disk it leaves: start-up succeeds
    and keeps every snapshot. *)
Theorem disk_only_gains_snapshots :
  (forall (es : list event) (s s' : system),
     run es s = Some s' ->
     forall path : string,
       fs s' !! path = fs s !! path \/
       (String.prefix "snapshots/no_helmet_" path = true /\
        String.length path = 39%nat /\
        exists f : Frame, fs s' !! path = Some (File f))) /\
  (forall s : system,
     reachable s ->
     fs s !! SNAPSHOT_DIR = Some Dir /\
     exists s1 : system, startup (fs s) = Returned s1 /\ fs s1 = fs s).
Proof.
  assert (forall (es : list event) (s s' : system),
             run es s = Some s' ->
             forall path : string,
               fs s' !! path = fs s !! path \/
               (String.prefix "snapshots/no_helmet_" path = true /\
                String.length path = 39%nat /\
                exists f : Frame, fs s' !! path = Some (File f))) as Hgain.
  { induction es as [|e es IH]; intros s s'; cbn [run].
    - intros [= <-] path. now left.
    - destruct (step e s) as [s1|] eqn:E; [|discriminate]. intros Hrun path.
      destruct (IH s1 s' Hrun path) as [Heq | Hsnap]; [|now right].
      destruct (step_fs e s s1 E) as [Hfs | (c & Hfs)]; [left; congruence|].
      rewrite Heq, Hfs.
      destruct (decide (snapshot_filename (strftime (wall_clock c)) = path)) as [<-|Hne].
      + right. split; [apply snapshot_filename_prefix|]. split; [reflexivity|].
        exists (annotate c). apply lookup_insert_eq.
      + left. now apply lookup_insert_ne. }
  split; [exact Hgain|].
  intros s (disk & s0 & es & Hs0 & Hrun).
  assert (fs s !! SNAPSHOT_DIR = Some Dir) as Hdir.
  { destruct (Hgain es s0 s Hrun SNAPSHOT_DIR) as [-> | (Hp & _)]; [|discriminate Hp].
    rewrite startup_disk in Hs0.
    destruct (disk !! SNAPSHOT_DIR) as [[|f]|] eqn:E; try discriminate Hs0;
      injection Hs0 as <-; cbn.
    - exact E.
    - apply lookup_insert_eq. }
  split; [exact Hdir|]. rewrite startup_disk, Hdir. eexists. split; reflexivity.
Qed.

Lemma disk_only_gains_snapshots_witness :
  match run during_playback fresh_system with
  | Some s =>
      fs s !! SNAPSHOT_DIR = Some Dir /\
      exists s1 : system, startup (fs s) = Returned s1 /\ fs s1 = fs s
  | None => False
  end.
Proof.
  destruct disk_only_gains_snapshots as [_ H].
  destruct (run during_playback fresh_system) as [s|] eqn:E; [|discriminate E].
  apply H. exists ∅, fresh_system, during_playback. split; [reflexivity | exact E].
Defined.

(** ** The end of the stream *)

(** X10. A failed [cap.read()] ends the generator, and a generator that has
    ended, or died on an exception of [cv2.imwrite], never reads, sends or
    stores anything again: a schedule that runs from such a state holds no
    read, and leaves the generator, the disk and the frames and snapshot
    attempts as they were.  (The worker goes on.) *)
Theorem stream_ends_for_good :
  (forall s : system,
     generator s = Streaming ->
     step (CapRead ReadFailed) s = Some (set_generator Ended s)) /\
  (forall (rd : cap_read) (s : system),
     generator s <> Streaming -> step (CapRead rd) s = None) /\
  (forall (es : list event) (s s' : system),
     generator s <> Streaming -> run es s = Some s' ->
     List.filter is_cap_read es = [] /\
     generator s' = generator s /\ fs s' = fs s /\
     List.filter is_video (history s') = List.filter is_video (history s)).
Proof.
  assert (forall (rd : cap_read) (s : system),
             generator s <> Streaming -> step (CapRead rd) s = None) as Hdead.
  { intros rd s Hg. cbn [step]. unfold generate_frames_step.
    destruct (generator s); [congruence | reflexivity | reflexivity]. }
  split; [|split; [exact Hdead|]].
  - intros s Hg. cbn [step]. unfold generate_frames_step. now rewrite Hg.
  - induction es as [|e es IH]; intros s s' Hg; cbn [run List.filter].
    + now intros [= <-].
    + destruct (step e s) as [s1|] eqn:E; [|discriminate]. intros Hrun.
      destruct (is_cap_read e) eqn:Hc.
      * destruct e as [rd| |]; try discriminate Hc. rewrite (Hdead rd s Hg) in E. discriminate.
      * destruct (worker_step_video e s s1 Hc E) as (Hg1 & Hf1 & Hh1).
        rewrite <- Hg1 in Hg. destruct (IH s1 s' Hg Hrun) as (-> & -> & -> & ->). auto.
Qed.

Lemma stream_ends_for_good_witness :
  List.filter is_cap_read [WorkerGet 10; PlaysoundReturns PlayOk] = [] /\
  option_map generator
    (run [WorkerGet 10; PlaysoundReturns PlayOk]
         (mkSystem (mkQueue 1 [1%Z] 1) 0 AtGet Ended {[SNAPSHOT_DIR := Dir]} [])) = Some Ended.
Proof.
  destruct stream_ends_for_good as (_ & _ & H).
  destruct (run [WorkerGet 10; PlaysoundReturns PlayOk]
                (mkSystem (mkQueue 1 [1%Z] 1) 0 AtGet Ended {[SNAPSHOT_DIR := Dir]} []))
    as [s'|] eqn:E; [|discriminate E].
  assert (generator (mkSystem (mkQueue 1 [1%Z] 1) 0 AtGet Ended {[SNAPSHOT_DIR := Dir]} [])
          <> Streaming) as Hne by discriminate.
  destruct (H _ _ s' Hne E) as (H1 & H2 & _).
  split; [exact H1|]. cbn [option_map]. now rewrite H2.
Defined.

(** ** The frames sent *)

Lemma worker_step_history (e : event) (s s' : system) :
  is_cap_read e = false -> step e s = Some s' ->
  exists ext : list effect,
    history s' = history s ++ ext /\ Forall (fun x => is_audio x = true) ext.
Proof.
  destruct s as [[mx its un] lt wk g m h].
  destruct e as [rd|now|r]; [discriminate| |]; intros _; cbn [step].
  - unfold worker_get, PyQueue.get, PyQueue.task_done. cbn.
    destruct wk; try discriminate. destruct its as [|x rest]; [discriminate|].
    destruct (cooldown_elapsed lt now).
    + intros [= <-]. cbn. eexists. split; [reflexivity | repeat constructor].
    + destruct un; intros [= <-]; cbn; exists []; now rewrite app_nil_r.
  - unfold playsound_returns, PyQueue.task_done. cbn.
    destruct wk as [|now|]; try discriminate.
    destruct un; intros [= <-]; cbn; (eexists; split; [reflexivity|]);
      destruct r; repeat constructor.
Qed.

Lemma filter_yield_audio (ext : list effect) :
  Forall (fun x => is_audio x = true) ext -> List.filter is_yield ext = [].
Proof.
  induction 1 as [|e ext He _ IH]; [reflexivity|].
  destruct e; cbn in *; try discriminate; exact IH.
Qed.

(** What one step adds to the history, as far as the frames sent go. *)
Lemma step_yields (e : event) (s s1 : system) :
  step e s = Some s1 ->
  exists ext : list effect,
    history s1 = history s ++ ext /\
    List.filter is_yield ext =
      match e with
      | CapRead (ReadOk c) => if generator_died s1 then [] else [Yield (annotate c)]
      | _ => []
      end /\
    match e with
    | CapRead (ReadOk _) => generator s1 = Streaming \/ generator_died s1 = true
    | CapRead ReadFailed => generator s1 = Ended
    | _ => generator s1 = generator s
    end.
Proof.
  intros H. destruct (is_cap_read e) eqn:Hc.
  - destruct e as [rd| |]; try discriminate Hc. cbn [step] in H.
    destruct (generate_frames_step_cases rd s s1 H) as (Hg & _ & _ & Hcase).
    destruct rd as [|c].
    + subst s1. exists []. cbn. now rewrite app_nil_r.
    + destruct (existsb violating (detections c)).
      * destruct Hcase as (q' & _ & ->). eexists. split; [reflexivity|].
        unfold generator_died. cbn [generator].
        destruct (imwrite_does c); cbn; auto.
      * subst s1. eexists. split; [reflexivity|].
        unfold generator_died. cbn [generator emit]. rewrite Hg. cbn. auto.
  - destruct (worker_step_history e s s1 Hc H) as (ext & Hh & Haud).
    destruct (worker_step_video e s s1 Hc H) as (Hg & _ & _).
    exists ext. split; [exact Hh|]. rewrite (filter_yield_audio ext Haud).
    destruct e as [rd| |]; [discriminate Hc | auto | auto].
Qed.

Lemma dead_generator_reads_nothing (es : list event) :
  forall s s' : system,
    generator s <> Streaming -> run es s = Some s' ->
    captures es = [] /\ generator s' = generator s.
Proof.
  induction es as [|e es IH]; intros s s' Hg; cbn [run].
  - now intros [= <-].
  - destruct (step e s) as [s1|] eqn:E; [|discriminate]. intros Hrun.
    destruct e as [rd|now|r].
    + cbn [step] in E. unfold generate_frames_step in E.
      destruct (generator s); [congruence | discriminate | discriminate].
    + destruct (worker_step_video (WorkerGet now) s s1 eq_refl E) as (Hg1 & _).
      rewrite <- Hg1 in Hg. destruct (IH s1 s' Hg Hrun) as [Hc Hs].
      split; [exact Hc | congruence].
    + destruct (worker_step_video (PlaysoundReturns r) s s1 eq_refl E) as (Hg1 & _).
      rewrite <- Hg1 in Hg. destruct (IH s1 s' Hg Hrun) as [Hc Hs].
      split; [exact Hc | congruence].
Qed.

Lemma died_after_a_read (es : list event) :
  forall s s' : system,
    generator s = Streaming -> run es s = Some s' -> generator_died s' = true ->
    captures es <> [].
Proof.
  induction es as [|e es IH]; intros s s' Hg; cbn [run].
  - intros [= <-]. unfold generator_died. rewrite Hg. discriminate.
  - destruct (step e s) as [s1|] eqn:E; [|discriminate]. intros Hrun Hd.
    destruct (step_yields e s s1 E) as (_ & _ & _ & Hg1).
    destruct e as [[|c]|now|r]; cbn [captures flat_map app].
    + assert (generator s1 <> Streaming) as Hne by (rewrite Hg1; discriminate).
      destruct (dead_generator_reads_nothing es s1 s' Hne Hrun) as [_ Hs'].
      unfold generator_died in Hd. rewrite Hs', Hg1 in Hd. discriminate.
    + discriminate.
    + apply (IH s1 s'); congruence.
    + apply (IH s1 s'); congruence.
Qed.

(** X11. For the frames that [cap.read()] delivered and for which the
    detector, the drawing and the encoder returned (the [capture]s of a
    schedule), the generator sends one part each, in the order of the reads
    and with the frame as annotated for that read; the only one of them not
    sent is the one on which [cv2.imwrite] raised, which is the last one
    read. *)
Theorem one_part_per_frame (es : list event) :
  forall s s' : system,
    run es s = Some s' ->
    List.filter is_yield (added s s') =
    map (fun c => Yield (annotate c))
        (if generator_died s' then removelast (captures es) else captures es).
Proof.
  assert (forall s s' : system,
             run es s = Some s' ->
             exists ext : list effect,
               history s' = history s ++ ext /\
               List.filter is_yield ext =
               map (fun c => Yield (annotate c))
                   (if generator_died s' then removelast (captures es) else captures es)) as H.
  { induction es as [|e es IH]; intros s s'; cbn [run].
    - intros [= <-]. exists []. rewrite app_nil_r. split; [reflexivity|].
      now destruct (generator_died s).
    - destruct (step e s) as [s1|] eqn:E; [|discriminate]. intros Hrun.
      destruct (step_yields e s s1 E) as (ext0 & Hh0 & Hy0 & Hg1).
      destruct (IH s1 s' Hrun) as (ext1 & Hh1 & Hy1).
      exists (ext0 ++ ext1). split; [now rewrite Hh1, Hh0, app_assoc|].
      rewrite List.filter_app, Hy0, Hy1.
      destruct e as [[|c]|now|r]; try reflexivity.
      change (captures (CapRead (ReadOk c) :: es)) with (c :: captures es).
      destruct (generator_died s1) eqn:Hd1.
      + assert (generator s1 <> Streaming) as Hne.
        { unfold generator_died in Hd1. destruct (generator s1); congruence. }
        destruct (dead_generator_reads_nothing es s1 s' Hne Hrun) as [-> Hs'].
        unfold generator_died in *. rewrite Hs'. rewrite Hd1. reflexivity.
      + destruct Hg1 as [Hg1 | Hg1]; [|congruence].
        destruct (generator_died s') eqn:Hd'; [|reflexivity].
        pose proof (died_after_a_read es s1 s' Hg1 Hrun Hd') as Hne.
        destruct (captures es) as [|c' cs]; [congruence | reflexivity]. }
  intros s s' Hrun. destruct (H s s' Hrun) as (ext & Hh & Hy).
  unfold added. now rewrite Hh, drop_app_length.
Qed.

Lemma one_part_per_frame_witness :
  option_map (fun s' => List.filter is_yield (added fresh_system s'))
             (run during_playback fresh_system) =
  Some [Yield (annotate (violation_capture ImwriteTrue));
        Yield (annotate (violation_capture ImwriteTrue))].
Proof.
  destruct (run during_playback fresh_system) as [s'|] eqn:E; [|discriminate E].
  cbn [option_map]. rewrite (one_part_per_frame during_playback fresh_system s' E).
  injection E as <-. reflexivity.
Defined.

(** ** A run of violating frames *)

(** X12. Violating frames that come one after the other, with the worker not
    scheduled in between, each get their snapshot attempt and their part,
    while a single alert request at most is accepted: the first one, when
    the slot was free.  The frame loop goes on streaming and does not touch
    the worker's [last_time]. *)
Theorem burst_of_violations (cs : list capture) :
  forall s : system,
    generator s = Streaming ->
    Forall (fun c => existsb violating (detections c) = true /\
                     imwrite_does c <> ImwriteRaised) cs ->
    exists s' : system,
      run (map (fun c => CapRead (ReadOk c)) cs) s = Some s' /\
      length (List.filter is_imwrite (added s s')) = length cs /\
      length (List.filter is_yield (added s s')) = length cs /\
      length (List.filter is_accepted (added s s')) =
        match cs, items (audio_queue s) with
        | _ :: _, [] => 1%nat
        | _, _ => 0%nat
        end /\
      generator s' = Streaming /\ last_time s' = last_time s /\ worker s' = worker s.
Proof.
  assert (forall s : system,
             generator s = Streaming ->
             Forall (fun c => existsb violating (detections c) = true /\
                              imwrite_does c <> ImwriteRaised) cs ->
             exists (s' : system) (ext : list effect),
               run (map (fun c => CapRead (ReadOk c)) cs) s = Some s' /\
               history s' = history s ++ ext /\
               length (List.filter is_imwrite ext) = length cs /\
               length (List.filter is_yield ext) = length cs /\
               length (List.filter is_accepted ext) =
                 match cs, items (audio_queue s) with
                 | _ :: _, [] => 1%nat
                 | _, _ => 0%nat
                 end /\
               items (audio_queue s') =
                 match cs, items (audio_queue s) with
                 | _ :: _, [] => [1%Z]
                 | _, _ => items (audio_queue s)
                 end /\
               generator s' = Streaming /\ last_time s' = last_time s /\
               worker s' = worker s) as H.
  { induction cs as [|c cs IH]; intros s Hg Hall.
    - exists s, []. cbn. rewrite app_nil_r. now repeat split.
    - apply Forall_cons in Hall as [[Hv Hr] Hall]. cbn [map run step].
      destruct (generate_frames_step_violation s c Hg Hv) as (q' & Hq & ->).
      destruct (play_alert_returns (audio_queue s)) as (q2 & Hq2 & Hdrop & Hput).
      rewrite Hq in Hq2. injection Hq2 as <-.
      match goal with |- context [run _ ?s1] => set (s1' := s1) end.
      assert (generator s1' = Streaming) as Hg1.
      { subst s1'. cbn. now destruct (imwrite_does c). }
      destruct (IH s1' Hg1 Hall) as (s' & ext & Hrun & Hh & Hi & Hy & Ha & Hit & Hg' & Hl & Hw).
      exists s'. eexists. split; [exact Hrun|].
      split; [rewrite Hh; subst s1'; cbn [history]; rewrite <- app_assoc; reflexivity|].
      rewrite !List.filter_app, !length_app, Hi, Hy, Ha, Hit, Hl, Hw, empty_items.
      subst s1'. cbn [audio_queue last_time worker].
      destruct (items (audio_queue s)) as [|x rest] eqn:Ei.
      + destruct (Hput eq_refl) as [-> _].
        destruct (imwrite_does c), cs; try congruence; cbn; repeat split; exact Hg'.
      + rewrite (Hdrop ltac:(discriminate)), Ei.
        destruct (imwrite_does c), cs; try congruence; cbn; repeat split; exact Hg'. }
  intros s Hg Hall.
  destruct (H s Hg Hall) as (s' & ext & Hrun & Hh & Hi & Hy & Ha & _ & Hg' & Hl & Hw).
  exists s'. unfold added. rewrite Hh, drop_app_length. auto 10.
Qed.

Lemma burst_of_violations_witness :
  exists s' : system,
    run (map (fun c => CapRead (ReadOk c))
             [violation_capture ImwriteTrue; violation_capture ImwriteFalse;
              violation_capture ImwriteTrue]) fresh_system = Some s' /\
    length (List.filter is_imwrite (added fresh_system s')) = 3%nat /\
    length (List.filter is_accepted (added fresh_system s')) = 1%nat.
Proof.
  destruct (burst_of_violations
              [violation_capture ImwriteTrue; violation_capture ImwriteFalse;
               violation_capture ImwriteTrue] fresh_system eq_refl)
    as (s' & H1 & H2 & _ & H3 & _).
  - repeat constructor; discriminate.
  - exists s'. split; [exact H1|]. split; [exact H2 | exact H3].
Defined.

(** ** The drawings and the counts *)





Lemma filter_length_perm {A : Type} (p : A -> bool) (l l' : list A) :
  l ≡ₚ l' -> length (List.filter p l) = length (List.filter p l').
Proof.
  induction 1 as [|x l l' _ IH|x y l|l l' l'' _ IH1 _ IH2]; cbn [List.filter].
  - reflexivity.
  - destruct (p x); cbn [length]; now rewrite IH.
  - destruct (p x), (p y); reflexivity.
  - now rewrite IH1.
Qed.

Lemma existsb_perm {A : Type} (p : A -> bool) (l l' : list A) :
  l ≡ₚ l' -> existsb p l = existsb p l'.
Proof.
  induction 1 as [|x l l' _ IH|x y l|l l' l'' _ IH1 _ IH2]; cbn [existsb].
  - reflexivity.
  - now rewrite IH.
  - now destruct (p x), (p y).
  - now rewrite IH1.
Qed.

(** X14. The counts and the flag do not depend on the order in which the
    detector lists the boxes, nor on the frame they are drawn on; over two
    lists put end to end the counts add up and the flag is raised when it
    is for either. *)
Theorem tally_order_free :
  (forall (f f' : Frame) (bs bs' : list Box),
     bs ≡ₚ bs' ->
     helmet_count (tally_boxes f bs) = helmet_count (tally_boxes f' bs') /\
     no_helmet_count (tally_boxes f bs) = no_helmet_count (tally_boxes f' bs') /\
     no_helmet_detected (tally_boxes f bs) = no_helmet_detected (tally_boxes f' bs')) /\
  (forall (f : Frame) (bs1 bs2 : list Box),
     helmet_count (tally_boxes f (bs1 ++ bs2)) =
       (helmet_count (tally_boxes f bs1) + helmet_count (tally_boxes f bs2))%nat /\
     no_helmet_count (tally_boxes f (bs1 ++ bs2)) =
       (no_helmet_count (tally_boxes f bs1) + no_helmet_count (tally_boxes f bs2))%nat /\
     no_helmet_detected (tally_boxes f (bs1 ++ bs2)) =
       no_helmet_detected (tally_boxes f bs1) || no_helmet_detected (tally_boxes f bs2)).
Proof.
  assert (forall (f : Frame) (bs : list Box),
             helmet_count (tally_boxes f bs) = length (List.filter compliant bs) /\
             no_helmet_count (tally_boxes f bs) = length (List.filter violating bs) /\
             no_helmet_detected (tally_boxes f bs) = existsb violating bs) as H.
  { intros f bs. unfold tally_boxes.
    destruct (fold_box_step_counts bs (mkTally 0 0 false f)) as (-> & -> & ->). auto. }
  split.
  - intros f f' bs bs' Hp.
    destruct (H f bs) as (-> & -> & ->). destruct (H f' bs') as (-> & -> & ->).
    rewrite (filter_length_perm compliant bs bs' Hp),
      (filter_length_perm violating bs bs' Hp), (existsb_perm violating bs bs' Hp). auto.
  - intros f bs1 bs2.
    destruct (H f (bs1 ++ bs2)) as (-> & -> & ->).
    destruct (H f bs1) as (-> & -> & ->). destruct (H f bs2) as (-> & -> & ->).
    rewrite !List.filter_app, !length_app, existsb_app. auto.
Qed.

Lemma tally_order_free_witness :
  helmet_count (tally_boxes (mkFrame 0 []) [helmet_box; no_helmet_box; faint_box]) =
  helmet_count (tally_boxes (mkFrame 7 []) [faint_box; no_helmet_box; helmet_box]) /\
  no_helmet_detected (tally_boxes (mkFrame 0 []) [helmet_box; no_helmet_box; faint_box]) =
  no_helmet_detected (tally_boxes (mkFrame 7 []) [faint_box; no_helmet_box; helmet_box]).
Proof.
  destruct tally_order_free as [H _].
  destruct (H (mkFrame 0 []) (mkFrame 7 []) [helmet_box; no_helmet_box; faint_box]
              [faint_box; no_helmet_box; helmet_box]) as (H1 & _ & H3).
  - apply (Permutation_rev [helmet_box; no_helmet_box; faint_box]).
  - split; [exact H1 | exact H3].
Defined.

(** ** Labels *)

Lemma ascii_lower_idempotent (c : ascii) :
  Str.ascii_lower (Str.ascii_lower c) = Str.ascii_lower c.
Proof. destruct c as [[] [] [] [] [] [] [] []]; reflexivity. Qed.

Lemma lower_idempotent (s : string) : Str.lower (Str.lower s) = Str.lower s.
Proof.
  induction s as [|c s IH]; [reflexivity|].
  cbn [Str.lower]. now rewrite ascii_lower_idempotent, IH.
Qed.

Lemma lower_append (s t : string) :
  Str.lower (s ++ t)%string = (Str.lower s ++ Str.lower t)%string.
Proof.
  induction s as [|c s IH]; [reflexivity|].
  rewrite append_cons. cbn [Str.lower]. now rewrite IH, append_cons.
Qed.

Lemma tally_flag_counts (f : Frame) (bs : list Box) :
  helmet_count (tally_boxes f bs) = length (List.filter compliant bs) /\
  no_helmet_count (tally_boxes f bs) = length (List.filter violating bs) /\
  no_helmet_detected (tally_boxes f bs) = existsb violating bs.
Proof.
  unfold tally_boxes.
  destruct (fold_box_step_counts bs (mkTally 0 0 false f)) as (-> & -> & ->). auto.
Qed.

(** X15. The class of a box does not depend on the case of the letters of its
    label: a label and its lower-case form are classified alike, two labels
    with the same lower-case form are, and putting every label of a frame
    in lower case changes neither the counts nor the flag. *)
Theorem classification_ignores_case :
  (forall l : string, helmet_label (Str.lower l) = helmet_label l) /\
  (forall l1 l2 : string, Str.lower l1 = Str.lower l2 -> helmet_label l1 = helmet_label l2) /\
  (forall (f : Frame) (bs : list Box),
     helmet_count (tally_boxes f (map lower_label bs)) = helmet_count (tally_boxes f bs) /\
     no_helmet_count (tally_boxes f (map lower_label bs)) = no_helmet_count (tally_boxes f bs) /\
     no_helmet_detected (tally_boxes f (map lower_label bs)) =
       no_helmet_detected (tally_boxes f bs)).
Proof.
  assert (forall l : string, helmet_label (Str.lower l) = helmet_label l) as Hl.
  { intros l. unfold helmet_label. now rewrite lower_idempotent. }
  split; [exact Hl|]. split.
  - intros l1 l2 H. unfold helmet_label. now rewrite H.
  - intros f bs.
    destruct (tally_flag_counts f (map lower_label bs)) as (-> & -> & ->).
    destruct (tally_flag_counts f bs) as (-> & -> & ->).
    assert (forall b, compliant (lower_label b) = compliant b) as Hc.
    { intros b. unfold compliant, lower_label. cbn [conf label]. now rewrite Hl. }
    assert (forall b, violating (lower_label b) = violating b) as Hv.
    { intros b. unfold violating, lower_label. cbn [conf label]. now rewrite Hl. }
    induction bs as [|b bs (IH1 & IH2 & IH3)]; [auto|].
    cbn [map List.filter existsb]. rewrite Hc, Hv, IH3.
    destruct (compliant b), (violating b); cbn [length]; auto.
Qed.

Lemma classification_ignores_case_witness :
  helmet_label "HeLmEt" = helmet_label "helmet" /\
  helmet_label "No-Helmet" = helmet_label "NO-HELMET".
Proof.
  destruct classification_ignores_case as (_ & H & _).
  split; apply H; reflexivity.
Defined.

(** X16. The two keywords of line 75.  A label that contains "no" in any case
    of the letters, anywhere, also inside a word and also next to "helmet",
    is never a helmet label, so a box at or above the threshold that
    carries it is a violation; a label that is "helmet" in any case of the
    letters is a helmet label; and a label without "helmet" is not one. *)
Theorem label_keywords :
  (forall pre mid post : string,
     Str.lower mid = "no" -> helmet_label (pre ++ mid ++ post)%string = false) /\
  (forall (b : Box) (pre mid post : string),
     label b = (pre ++ mid ++ post)%string -> Str.lower mid = "no" ->
     (CONFIDENCE_THRESHOLD <= conf b)%Q ->
     violating b = true /\ compliant b = false) /\
  (forall l : string, Str.lower l = "helmet" -> helmet_label l = true) /\
  (forall l : string, ~ Str.contains (Str.lower l) "helmet" -> helmet_label l = false).
Proof.
  assert (forall pre mid post : string,
             Str.lower mid = "no" -> helmet_label (pre ++ mid ++ post)%string = false) as Hno.
  { intros pre mid post Hm. unfold helmet_label.
    assert (Str.str_in "no" (Str.lower (pre ++ mid ++ post)%string) = true) as ->.
    { apply str_in_contains. exists (Str.lower pre), (Str.lower post).
      now rewrite !lower_append, Hm. }
    apply andb_false_r. }
  split; [exact Hno|]. split; [|split].
  - intros b pre mid post Hl Hm Hc. unfold violating, compliant.
    apply Qle_bool_iff in Hc. rewrite Hc, Hl, (Hno pre mid post Hm). now split.
  - intros l Hl. unfold helmet_label. now rewrite Hl.
  - intros l Hn. unfold helmet_label.
    destruct (Str.str_in "helmet" (Str.lower l)) eqn:E; [|reflexivity].
    apply str_in_contains in E. contradiction.
Qed.

Lemma label_keywords_witness :
  helmet_label ("s" ++ "No" ++ "w helmet")%string = false /\
  helmet_label "HELMET" = true.
Proof.
  destruct label_keywords as (H1 & _ & H3 & _).
  split; [apply H1 | apply H3]; reflexivity.
Defined.

(** ** The order of the snapshot names *)

Lemma append_right_nested (a b c : string) :
  ((a ++ b) ++ c)%string = (a ++ b ++ c)%string.
Proof.
  induction a as [|x a IH]; [reflexivity|]. now rewrite !append_cons, IH.
Qed.

Lemma compare_cons (c1 c2 : ascii) (s1 s2 : string) :
  String.compare (String c1 s1) (String c2 s2) =
  then_compare (Ascii.compare c1 c2) (String.compare s1 s2).
Proof. cbn [String.compare]. now destruct (Ascii.compare c1 c2). Qed.

Lemma compare_same_head (c : ascii) (s1 s2 : string) :
  String.compare (String c s1) (String c s2) = String.compare s1 s2.
Proof. rewrite compare_cons. unfold Ascii.compare. now rewrite N.compare_refl. Qed.

Lemma digit_compare (a b : Z) :
  Ascii.compare (digit a) (digit b) = (a mod 10 ?= b mod 10)%Z.
Proof.
  unfold Ascii.compare, digit, ascii_of_nat.
  pose proof (Z.mod_pos_bound a 10 eq_refl) as Ha.
  pose proof (Z.mod_pos_bound b 10 eq_refl) as Hb.
  rewrite !N_ascii_embedding by lia.
  rewrite <- N2Z.inj_compare, !nat_N_Z, !Nat2Z.inj_add, !Z2Nat.id by lia.
  apply Z.add_compare_mono_l.
Qed.

Lemma lex_digits (m a b : Z) (k : comparison) :
  (0 < m)%Z -> (0 <= a)%Z -> (0 <= b)%Z ->
  then_compare ((a / m) mod 10 ?= (b / m) mod 10)%Z
               (then_compare (a mod m ?= b mod m)%Z k) =
  then_compare (a mod (10 * m) ?= b mod (10 * m))%Z k.
Proof.
  intros Hm Ha Hb.
  assert (forall x : Z, (0 <= x)%Z -> (x mod (10 * m) = (x / m) mod 10 * m + x mod m)%Z) as Hx.
  { intros x Hx0. rewrite (Z.mul_comm 10 m), Z.rem_mul_r by lia. lia. }
  rewrite (Hx a Ha), (Hx b Hb).
  pose proof (Z.mod_pos_bound a m Hm) as Ham. pose proof (Z.mod_pos_bound b m Hm) as Hbm.
  destruct (Z.compare_spec ((a / m) mod 10) ((b / m) mod 10)) as [E|E|E]; cbn [then_compare].
  - rewrite E. now rewrite Z.add_compare_mono_l.
  - rewrite (proj2 (Z.compare_lt_iff _ _)); [reflexivity | nia].
  - rewrite (proj2 (Z.compare_gt_iff _ _)); [reflexivity | nia].
Qed.

Lemma two_digits_compare (a b : Z) (k1 k2 : string) :
  (0 <= a < 100)%Z -> (0 <= b < 100)%Z ->
  String.compare (two_digits a ++ k1)%string (two_digits b ++ k2)%string =
  then_compare (a ?= b)%Z (String.compare k1 k2).
Proof.
  intros Ha Hb. unfold two_digits.
  rewrite !append_cons, !append_nil, !compare_cons, !digit_compare.
  assert (forall x k, then_compare (x mod 10 ?= b mod 10)%Z k =
                      then_compare ((x / 1) mod 10 ?= (b / 1) mod 10)%Z
                                   (then_compare (x mod 1 ?= b mod 1)%Z k)) as H1.
  { intros x k. now rewrite !Z.div_1_r, !Z.mod_1_r. }
  rewrite H1, (lex_digits 1 a b) by lia.
  change (10 * 1)%Z with 10%Z.
  rewrite (lex_digits 10 a b) by lia. change (10 * 10)%Z with 100%Z.
  now rewrite !Z.mod_small by lia.
Qed.

Lemma four_digits_compare (a b : Z) (k1 k2 : string) :
  (0 <= a < 10000)%Z -> (0 <= b < 10000)%Z ->
  String.compare (four_digits a ++ k1)%string (four_digits b ++ k2)%string =
  then_compare (a ?= b)%Z (String.compare k1 k2).
Proof.
  intros Ha Hb. unfold four_digits, two_digits.
  rewrite !append_cons, !append_nil, !compare_cons, !digit_compare.
  assert (forall x k, then_compare (x mod 10 ?= b mod 10)%Z k =
                      then_compare ((x / 1) mod 10 ?= (b / 1) mod 10)%Z
                                   (then_compare (x mod 1 ?= b mod 1)%Z k)) as H1.
  { intros x k. now rewrite !Z.div_1_r, !Z.mod_1_r. }
  rewrite (H1 a), (lex_digits 1 a b) by lia. change (10 * 1)%Z with 10%Z.
  rewrite (lex_digits 10 a b) by lia. change (10 * 10)%Z with 100%Z.
  rewrite (lex_digits 100 a b) by lia. change (10 * 100)%Z with 1000%Z.
  rewrite (lex_digits 1000 a b) by lia. change (10 * 1000)%Z with 10000%Z.
  now rewrite !Z.mod_small by lia.
Qed.

(** X17. Snapshot names sort as their clock readings do: for two readings in
    [datetime]'s ranges the names compare, character by character, as the
    readings cut to the second compare in time.  A listing of the snapshot
    directory by name is a listing by time. *)
Theorem snapshot_names_sort_by_time (d1 d2 : datetime) :
  valid_datetime d1 -> valid_datetime d2 ->
  String.compare (snapshot_filename (strftime d1)) (snapshot_filename (strftime d2)) =
  datetime_compare d1 d2.
Proof.
  intros (HY1 & Hm1 & Hd1 & HH1 & HM1 & HS1 & _) (HY2 & Hm2 & Hd2 & HH2 & HM2 & HS2 & _).
  unfold snapshot_filename, path_join, SNAPSHOT_DIR, strftime.
  rewrite !append_cons, !append_nil, !compare_same_head.
  rewrite !append_right_nested.
  rewrite four_digits_compare by lia.
  rewrite !two_digits_compare by lia.
  rewrite !append_cons, !compare_same_head, !append_right_nested.
  rewrite !two_digits_compare by lia.
  unfold datetime_compare. cbn [String.compare Ascii.compare].
  now destruct (second d1 ?= second d2)%Z.
Qed.

Lemma snapshot_names_sort_by_time_witness :
  String.compare (snapshot_filename (strftime sample_clock))
                 (snapshot_filename (strftime (mkDatetime 2024 10 1 0 0 0 0))) = Lt.
Proof.
  rewrite (snapshot_names_sort_by_time sample_clock (mkDatetime 2024 10 1 0 0 0 0)).
  - reflexivity.
  - cbv; intuition discriminate.
  - cbv; intuition discriminate.
Defined.
